(** * Adaptive trust-region optimisation: [pymor.algorithms.tr]

    A shallow embedding of [trust_region] and of [TRSurrogate]
    (src/pymor/algorithms/tr.py) and the properties of the outer loop and of
    the surrogate's extend/accept/reject protocol.

    - Python floats and numpy float64 scalars are IEEE binary64 numbers:
      they are Rocq's primitive floats, so that infinities and NaN behave as
      they do in the program.  The two divisions of the program are the one
      on numpy scalars in the line-search criterion and [radius /=
      shrink_factor], which the assertion [shrink_factor != 0.] guards.
    - Python integers ([iteration], [miniter], [maxiter]) are [Z].
    - The numpy arrays that hold parameters are never updated in place by
      this code: they are values, and [copy()] is the identity.
    - Reductor objects are mutable: they live in an object store indexed by
      identity, [deepcopy] allocates a new identity, and [extend_basis] /
      [reduce] act on the object they are called on.
    - Exceptions are values of [exn]; code that may raise returns [res]. *)

From Stdlib Require Import Floats ZArith Bool List Lia.
From stdpp Require Import base option strings gmap sorting.

Set Default Proof Using "Type".
Local Open Scope Z_scope.

(** ** Exceptions and results *)

Inductive exn : Type :=
| AssertionError (msg : option string)
| AttributeError (attr : string)
| IndexError
| TRError (msg : string)
| OtherError (name : string)  (* an exception of another class, raised
                                 inside a collaborator *)
| DanglingRef.  (* a reference to an identity absent from the store: no Python
                   state has one, see [run_surrogate_ready] *)

Inductive res (A : Type) : Type :=
| Ok (a : A)
| Exc (e : exn).
Arguments Ok {A} a.
Arguments Exc {A} e.

#[global] Instance res_ret : MRet res := fun A a => Ok a.
#[global] Instance res_bind : MBind res := fun A B f m =>
  match m with
  | Ok a => f a
  | Exc e => Exc e
  end.

(** [assert b] and [assert b, msg]. *)
Definition py_assert (b : bool) (msg : option string) : res unit :=
  if b then Ok tt else Exc (AssertionError msg).

(** [np.isfinite] on a float64 scalar. *)
Definition isfinite (x : float) : bool := is_finite x.

(** ** The collaborators

    The full model, the reductor, the reduced models, the parameter space,
    numpy's vector operations and [error_aware_bfgs] are not part of
    tr.py: they are taken as an interface.  Calls are modelled as
    returning, except [extend_basis] and [reduce], whose failure the code
    handles; in [Unguarded] below, [fom.solve] and [error_aware_bfgs] may
    raise as well. *)

Class Collaborators : Type := {
  Mu : Type;          (* parameter values as a numpy array *)
  Solution : Type;    (* what [fom.solve] returns *)
  Reductor : Type;    (* the state of one reductor object *)
  Rom : Type;         (* a reduced model (immutable) *)
  Space : Type;       (* a ParameterSpace *)
  SubData : Type;     (* the data dict of one subproblem *)
  SubParams : Type;   (* arguments handed through to [error_aware_bfgs] *)

  (* numpy *)
  linalg_norm : Mu -> float;
  vsub : Mu -> Mu -> Mu;

  (* reductor.fom *)
  fom_solve : Mu -> Solution;
  fom_output_at : Mu -> float;               (* fom.output(mu)[0, 0] *)
  fom_output_d_mu : Mu -> Mu;                (* parse(fom.output_d_mu(mu)).to_numpy() *)
  fom_compatible : Mu -> bool;               (* parameters.assert_compatible(parse(mu)) *)
  fom_has_output_functional : bool;
  fom_output_dim : Z;
  fom_default_space : Space;                 (* fom.parameters.space(-1., 1.) *)

  (* a reductor object: both calls may change the object; the second
     component tells whether the call returned (or raised) *)
  extend_basis : Reductor -> Solution -> Reductor * bool;
  reduce : Reductor -> Reductor * option Rom;
  rb_length : Reductor -> nat;               (* len(reductor.bases['RB']) *)

  (* a reduced model *)
  rom_output_at : Rom -> Mu -> float;        (* rom.output(mu)[0, 0] *)
  rom_estimate_output_error : Rom -> Mu -> float;
  rom_has_output_functional : Rom -> bool;
  rom_output_dim : Rom -> Z;

  (* the parameter space *)
  sample_randomly : Space -> Mu;             (* sample_randomly(1)[0].to_numpy() *)
  clip : Space -> Mu -> Mu;                  (* clip(mu).to_numpy() *)

  (* the subproblem solver and the ['mus'] entry of its data *)
  error_aware_bfgs :
    Rom -> Space -> Mu -> SubParams -> (Mu -> float -> bool) -> Mu * SubData;
  sub_mus : SubData -> list Mu;
}.

(** ** TRSurrogate *)

Section Surrogate.
Context `{C : Collaborators}.

(** The attributes of a [TRSurrogate].  [reductor] and [new_reductor] hold
    the identity of a reductor object or Python's [None]; [rom] is [None]
    as long as the attribute has not been assigned (inside [__init__]);
    [new_rom] holds a reduced model or Python's [None]. *)
Record TRSurrogate : Type := mkSurrogate {
  objs : gmap nat Reductor;
  reductor : option nat;
  rom : option Rom;
  new_reductor : option nat;
  new_rom : option Rom;
}.

Definition no_new_rom : string :=
  "No new ROM found. Did you forget to call surrogate.extend()?".

Definition the_rom (s : TRSurrogate) : res Rom :=
  match rom s with
  | Some r => Ok r
  | None => Exc (AttributeError "rom")
  end.

Definition fom_output (s : TRSurrogate) (mu : Mu) : float := fom_output_at mu.

Definition fom_gradient (s : TRSurrogate) (mu : Mu) : Mu := fom_output_d_mu mu.

Definition rom_output (s : TRSurrogate) (mu : Mu) : res float :=
  r ← the_rom s; Ok (rom_output_at r mu).

Definition estimate_output_error (s : TRSurrogate) (mu : Mu) : res float :=
  r ← the_rom s; Ok (rom_estimate_output_error r mu).

(** The [except Exception] branch of [extend], entered with the store as the
    failed attempt left it. *)
Definition extend_fallback (o : gmap nat Reductor) (s : TRSurrogate)
  : res TRSurrogate :=
  r ← the_rom s;
  Ok (mkSurrogate o (reductor s) (rom s) (reductor s) (Some r)).

(** The [try] block of [extend], run on the copy: the copy as the block
    leaves it, and the new reduced model unless one of the two calls raised. *)
Definition try_extend_and_reduce (r0 : Reductor) (U_h_mu : Solution)
  : Reductor * option Rom :=
  let '(r1, extended) := extend_basis r0 U_h_mu in
  if extended then reduce r1 else (r1, None).

Definition extend (s : TRSurrogate) (mu : Mu) : res TRSurrogate :=
  let U_h_mu := fom_solve mu in
  match reductor s with
  | None =>
      (* deepcopy(None) is None, and None.extend_basis raises inside the try *)
      extend_fallback (objs s) s
  | Some l =>
      match objs s !! l with
      | None => Exc DanglingRef
      | Some r0 =>
          let l' := fresh (dom (objs s)) in          (* deepcopy *)
          let '(r', reduced) := try_extend_and_reduce r0 U_h_mu in
          let o := <[l' := r']> (objs s) in
          match reduced with
          | Some m => Ok (mkSurrogate o (reductor s) (rom s) (Some l') (Some m))
          | None => extend_fallback o s
          end
      end
  end.

Definition new_rom_output (s : TRSurrogate) (mu : Mu) : res float :=
  match new_rom s with
  | None => Exc (AssertionError (Some no_new_rom))
  | Some m =>
      _ ← py_assert (rom_has_output_functional m) None;
      _ ← py_assert (rom_output_dim m =? 1) None;
      Ok (rom_output_at m mu)
  end.

Definition accept (s : TRSurrogate) : res TRSurrogate :=
  match new_rom s with
  | None => Exc (AssertionError (Some no_new_rom))
  | Some m => Ok (mkSurrogate (objs s) (new_reductor s) (Some m) None None)
  end.

Definition reject (s : TRSurrogate) : TRSurrogate :=
  mkSurrogate (objs s) (reductor s) (rom s) None None.

Definition rb_size (s : TRSurrogate) : res nat :=
  match reductor s with
  | None => Exc (AttributeError "bases")
  | Some l =>
      match objs s !! l with
      | None => Exc DanglingRef
      | Some r => Ok (rb_length r)
      end
  end.

(** [TRSurrogate(reductor, initial_guess)]: the caller's reductor object gets
    identity [0] in a store of its own. *)
Definition TRSurrogate_init (reductor0 : Reductor) (initial_guess : Mu)
  : res TRSurrogate :=
  let self := mkSurrogate {[ 0%nat := reductor0 ]} (Some 0%nat) None None None in
  _ ← py_assert (fom_compatible initial_guess) None;
  self ← extend self initial_guess;
  self ← accept self;
  _ ← py_assert fom_has_output_functional None;
  _ ← py_assert (fom_output_dim =? 1) None;
  r ← the_rom self;
  _ ← py_assert (rom_has_output_functional r) None;
  _ ← py_assert (rom_output_dim r =? 1) None;
  Ok (mkSurrogate (objs self) (reductor self) (rom self) None None).

End Surrogate.

(** ** trust_region *)

Section TrustRegion.
Context `{C : Collaborators}.

(** The keyword arguments that stay fixed during a run ([radius] is a local
    that the loop updates, it is in [State]). *)
Record Params : Type := mkParams {
  beta : float;
  shrink_factor : float;
  miniter : Z;
  maxiter : Z;
  tol_criticality : float;
  radius_tol : float;
  sub_params : SubParams;
}.

(** The locals of [trust_region] that live across iterations;
    [data_mus] and [data_subproblem_data] are [data['mus']] and
    [data['subproblem_data']]. *)
Record State : Type := mkState {
  mu : Mu;
  radius : float;
  surrogate : TRSurrogate;
  data_subproblem_data : list SubData;
  data_mus : list Mu;
  mu_norm : float;
  update_norms : list float;
  foc_norms : list float;
  old_rom_output : float;
  old_fom_output : float;
  first_order_criticality : float;
  iteration : Z;
}.

(** The dict that [trust_region] returns. *)
Record Data : Type := mkData {
  d_subproblem_data : list SubData;
  d_mus : list Mu;
  d_update_norms : list float;
  d_foc_norms : list float;
  d_iterations : Z;
}.

Definition max_iterations_msg : string :=
  "Failed to converge after the maximum amount of iterations.".
Definition not_finite_msg : string := "Failed to converge.".

(** The closure handed to the subproblem solver.  It reads [beta], the
    current [radius] and [surrogate.rom]; none of them changes while the
    solver runs, so they are arguments here. *)
Definition error_aware_line_search_criterion
    (r : Rom) (beta radius : float) (new_mu : Mu) (current_value : float) : bool :=
  let output_error := rom_estimate_output_error r new_mu in
  if (beta * radius <=? output_error / abs current_value)%float
  then true else false.

(** What the termination check at the head of a pass decides. *)
Inductive Check : Type := Converged | Exhausted | Proceed.

Definition termination_check (p : Params) (st : State) : Check :=
  if miniter p <=? iteration st then
    if (first_order_criticality st <? tol_criticality p)%float then Converged
    else if maxiter p <=? iteration st then Exhausted
    else Proceed
  else Proceed.

(** The test shared by the two accepting branches: the new radius. *)
Definition confident_radius (p : Params) (st : State)
    (current_fom_output current_output : float) : float :=
  let fom_output_diff := (old_fom_output st - current_fom_output)%float in
  let rom_output_diff := (old_rom_output st - current_output)%float in
  if (radius_tol p * rom_output_diff <=? fom_output_diff)%float
  then (radius st / shrink_factor p)%float
  else radius st.

(** The outcome of the output checks: the flag [rejected], the surrogate and
    the radius after them, and the local [current_output]. *)
Record Checked : Type := mkChecked {
  rejected : bool;
  checked_surrogate : TRSurrogate;
  checked_radius : float;
  current_output : float;
}.

(** "first BFGS iterate is AGC point": [sub_data['mus'][index]], [None] when
    the index is out of range. *)
Definition agc_point (sub_data : SubData) : option Mu :=
  let index := if (1 <? length (sub_mus sub_data))%nat then 1%nat else 0%nat in
  sub_mus sub_data !! index.

Definition output_checks (p : Params) (st : State) (mu' : Mu) (sub_data : SubData)
  : res Checked :=
  let s := surrogate st in
  agc ← match agc_point sub_data with
        | Some m => Ok m
        | None => Exc IndexError
        end;
  compare_output ← rom_output s agc;
  estimate_output ← estimate_output_error s mu';
  current_output ← rom_output s mu';
  if (current_output + estimate_output <? compare_output)%float then
    s ← extend s mu';
    let current_fom_output := fom_output s mu' in
    Ok (mkChecked false s (confident_radius p st current_fom_output current_output)
                  current_output)
  else if (compare_output <? current_output - estimate_output)%float then
    Ok (mkChecked true s (radius st * shrink_factor p)%float current_output)
  else
    s ← extend s mu';
    current_output ← new_rom_output s mu';
    if (current_output <=? compare_output)%float then
      let current_fom_output := fom_output s mu' in
      Ok (mkChecked false s (confident_radius p st current_fom_output current_output)
                    current_output)
    else
      Ok (mkChecked true s (radius st * shrink_factor p)%float current_output).

(** "handle parameter rejection": the state after the [if not rejected]
    statement, [iteration] already incremented. *)
Definition handle_rejection (space : Space) (st : State) (old_mu mu' : Mu)
    (sub_data : SubData) (c : Checked) : res State :=
  if negb (rejected c) then
    let gradient := fom_gradient (checked_surrogate c) mu' in
    let foc := linalg_norm (vsub mu' (clip space (vsub mu' gradient))) in
    s ← accept (checked_surrogate c);
    Ok (mkState mu' (checked_radius c) s
                (data_subproblem_data st ++ [sub_data])
                (data_mus st ++ [mu'])
                (linalg_norm mu')
                (update_norms st ++ [linalg_norm (vsub mu' old_mu)])
                (foc_norms st ++ [foc])
                (current_output c) (old_fom_output st)
                foc (iteration st + 1))
  else
    Ok (mkState old_mu (checked_radius c) (reject (checked_surrogate c))
                (data_subproblem_data st) (data_mus st) (mu_norm st)
                (update_norms st) (foc_norms st)
                (old_rom_output st) (old_fom_output st)
                (first_order_criticality st) (iteration st + 1)).

(** One pass from [iteration += 1] to the end of the accept/reject
    handling: the flag [rejected] and the state before the final test. *)
Definition propose_and_decide (p : Params) (space : Space) (st : State)
  : res (bool * State) :=
  let old_mu := mu st in
  r ← the_rom (surrogate st);
  let '(mu', sub_data) :=
    error_aware_bfgs r space (mu st) (sub_params p)
      (error_aware_line_search_criterion r (beta p) (radius st)) in
  c ← output_checks p st mu' sub_data;
  st' ← handle_rejection space st old_mu mu' sub_data c;
  Ok (rejected c, st').

(** How one pass of [while True] ends.  The messages written to the logger
    are not part of the model. *)
Inductive Pass : Type :=
| Break (st : State)
| Continue (was_rejected : bool) (st : State).

Definition loop_body (p : Params) (space : Space) (st : State) : res Pass :=
  match termination_check p st with
  | Converged => Ok (Break st)
  | Exhausted => Exc (TRError max_iterations_msg)
  | Proceed =>
      '(rej, st') ← propose_and_decide p space st;
      if negb (isfinite (mu_norm st')) then Exc (TRError not_finite_msg)
      else Ok (Continue rej st')
  end.

(** The loop; [None] when [fuel] passes were not enough to leave it. *)
Fixpoint trust_region_loop (p : Params) (space : Space) (fuel : nat) (st : State)
  : option (res State) :=
  match fuel with
  | O => None
  | S fuel =>
      match loop_body p space st with
      | Exc e => Some (Exc e)
      | Ok (Break st') => Some (Ok st')
      | Ok (Continue _ st') => trust_region_loop p space fuel st'
      end
  end.

(** The state on entry of the loop. *)
Definition initial_state (reductor0 : Reductor) (mu0 : Mu) (radius0 : float)
  : res State :=
  s ← TRSurrogate_init reductor0 mu0;
  old_rom ← rom_output s mu0;
  Ok (mkState mu0 radius0 s [] [mu0] (linalg_norm mu0) [] []
              old_rom (fom_output s mu0) infinity 0).

Definition trust_region (reductor0 : Reductor) (parameter_space : option Space)
    (initial_guess : option Mu) (radius0 : float) (p : Params) (fuel : nat)
  : option (res (Mu * Data)) :=
  match py_assert (negb (shrink_factor p =? 0)%float) None with
  | Exc e => Some (Exc e)
  | Ok _ =>
      let space := default fom_default_space parameter_space in
      let mu0 := default (sample_randomly space) initial_guess in
      match initial_state reductor0 mu0 radius0 with
      | Exc e => Some (Exc e)
      | Ok st0 =>
          match trust_region_loop p space fuel st0 with
          | None => None
          | Some (Exc e) => Some (Exc e)
          | Some (Ok st) =>
              Some (Ok (mu st,
                        mkData (data_subproblem_data st) (data_mus st)
                               (update_norms st) (foc_norms st) (iteration st)))
          end
      end
  end.

(** [passes p space st log st']: the loop goes from [st] to [st'] in
    [length log] complete passes, [log] holding their [rejected] flags. *)
Inductive passes (p : Params) (space : Space) : State -> list bool -> State -> Prop :=
| passes_nil st : passes p space st [] st
| passes_cons st rej st1 log st2 :
    loop_body p space st = Ok (Continue rej st1) ->
    passes p space st1 log st2 ->
    passes p space st (rej :: log) st2.

End TrustRegion.

(** ** The calls that [trust_region] does not guard

    In [TRSurrogate.extend] the call [self.fom.solve(mu)] sits before the
    [try], and in [trust_region] the call of [error_aware_bfgs] has no
    handler: an exception of either leaves the loop.  In this module both
    calls may raise: [solve_raises mu] and [bfgs_raises ...] give the
    exception, [None] when the call returns, with the value that the
    collaborator gives.  The remaining calls into the models (outputs, error
    estimates, gradients, norms, [clip]) are taken to return, as above.
    [extend], [output_checks], [propose_and_decide] and [loop_body] are the
    functions of the same names with the two calls made this way. *)

Module Unguarded.
Section Calls.
Context `{C : Collaborators}.

Variable solve_raises : Mu -> option exn.
Variable bfgs_raises :
  Rom -> Space -> Mu -> SubParams -> (Mu -> float -> bool) -> option exn.

(** A call that raises, or returns [value]. *)
Definition call {A : Type} (raises : option exn) (value : A) : res A :=
  match raises with
  | Some e => Exc e
  | None => Ok value
  end.

Definition extend (s : TRSurrogate) (mu : Mu) : res TRSurrogate :=
  U_h_mu ← call (solve_raises mu) (fom_solve mu);
  match reductor s with
  | None => extend_fallback (objs s) s
  | Some l =>
      match objs s !! l with
      | None => Exc DanglingRef
      | Some r0 =>
          let l' := fresh (dom (objs s)) in          (* deepcopy *)
          let '(r', reduced) := try_extend_and_reduce r0 U_h_mu in
          let o := <[l' := r']> (objs s) in
          match reduced with
          | Some m => Ok (mkSurrogate o (reductor s) (rom s) (Some l') (Some m))
          | None => extend_fallback o s
          end
      end
  end.

Definition output_checks (p : Params) (st : State) (mu' : Mu) (sub_data : SubData)
  : res Checked :=
  let s := surrogate st in
  agc ← match agc_point sub_data with
        | Some m => Ok m
        | None => Exc IndexError
        end;
  compare_output ← rom_output s agc;
  estimate_output ← estimate_output_error s mu';
  current_output ← rom_output s mu';
  if (current_output + estimate_output <? compare_output)%float then
    s ← extend s mu';
    let current_fom_output := fom_output s mu' in
    Ok (mkChecked false s (confident_radius p st current_fom_output current_output)
                  current_output)
  else if (compare_output <? current_output - estimate_output)%float then
    Ok (mkChecked true s (radius st * shrink_factor p)%float current_output)
  else
    s ← extend s mu';
    current_output ← new_rom_output s mu';
    if (current_output <=? compare_output)%float then
      let current_fom_output := fom_output s mu' in
      Ok (mkChecked false s (confident_radius p st current_fom_output current_output)
                    current_output)
    else
      Ok (mkChecked true s (radius st * shrink_factor p)%float current_output).

Definition propose_and_decide (p : Params) (space : Space) (st : State)
  : res (bool * State) :=
  let old_mu := mu st in
  r ← the_rom (surrogate st);
  let criterion := error_aware_line_search_criterion r (beta p) (radius st) in
  '(mu', sub_data) ←
    call (bfgs_raises r space (mu st) (sub_params p) criterion)
         (error_aware_bfgs r space (mu st) (sub_params p) criterion);
  c ← output_checks p st mu' sub_data;
  st' ← handle_rejection space st old_mu mu' sub_data c;
  Ok (rejected c, st').

Definition loop_body (p : Params) (space : Space) (st : State) : res Pass :=
  match termination_check p st with
  | Converged => Ok (Break st)
  | Exhausted => Exc (TRError max_iterations_msg)
  | Proceed =>
      '(rej, st') ← propose_and_decide p space st;
      if negb (isfinite (mu_norm st')) then Exc (TRError not_finite_msg)
      else Ok (Continue rej st')
  end.

End Calls.
End Unguarded.

(** ** A concrete instance: a quadratic output in one parameter

    The full output is [J(mu) = mu^2 + 1].  A reductor is the list of the
    parameters at which snapshots were taken; the reduced model built from it
    is exact at these parameters and off by [1] elsewhere, with the error
    estimate [5] there.  Extending by a snapshot that is already present
    fails.  The subproblem solver takes the two steps that its parameters
    give, stopping before a step that the error criterion flags. *)

Module Quadratic.
Local Open Scope float_scope.
#[local] Set Warnings "-inexact-float".

Definition J (mu : float) : float := mu * mu + 1.

Definition known (mu : float) (basis : list float) : bool :=
  existsb (fun x => x =? mu) basis.

Definition q_extend_basis (basis : list float) (u : float) : list float * bool :=
  if known u basis then (basis, false) else (basis ++ [u], true).

Definition q_reduce (basis : list float) : list float * option (list float) :=
  (basis, Some basis).

Definition q_output (basis : list float) (mu : float) : float :=
  if known mu basis then J mu else J mu + 1.

Definition q_estimate (basis : list float) (mu : float) : float :=
  if known mu basis then 0 else 5.

Definition q_clip (box : float * float) (mu : float) : float :=
  if mu <? fst box then fst box else if snd box <? mu then snd box else mu.

Definition q_bfgs (basis : list float) (box : float * float) (mu : float)
    (steps : float * float) (flagged : float -> float -> bool)
  : float * list float :=
  let m1 := q_clip box (mu - fst steps) in
  if flagged m1 (q_output basis m1) then (mu, [mu])
  else
    let m2 := q_clip box (m1 - snd steps) in
    if flagged m2 (q_output basis m2) then (m1, [mu; m1])
    else (m2, [mu; m1; m2]).

#[local] Instance quadratic : Collaborators := {|
  Mu := float;
  Solution := float;
  Reductor := list float;
  Rom := list float;
  Space := float * float;
  SubData := list float;
  SubParams := float * float;
  linalg_norm := abs;
  vsub := sub;
  fom_solve := fun mu => mu;
  fom_output_at := J;
  fom_output_d_mu := fun mu => 2 * mu;
  fom_compatible := fun _ => true;
  fom_has_output_functional := true;
  fom_output_dim := 1%Z;
  fom_default_space := (-1, 1);
  extend_basis := q_extend_basis;
  reduce := q_reduce;
  rb_length := @length float;
  rom_output_at := q_output;
  rom_estimate_output_error := q_estimate;
  rom_has_output_functional := fun _ => true;
  rom_output_dim := fun _ => 1%Z;
  sample_randomly := fun box => fst box;
  clip := q_clip;
  error_aware_bfgs := q_bfgs;
  sub_mus := fun d => d;
|}.

(** The documented defaults of [beta], [shrink_factor], [miniter] and
    [radius_tol], with the given budget, tolerance and steps of the solver. *)
Definition params (maxiter : Z) (tol : float) (steps : float * float) : Params :=
  mkParams 0.95 0.5 0 maxiter tol 0.75 steps.

Definition box : float * float := (-5, 5).

(** The state on entry of the loop for the empty reductor, the initial guess
    [mu0] and the radius [8]: the constructor has copied the reductor to the
    identity [1] and extended it by [mu0]. *)
Definition started (mu0 : float) : State :=
  mkState mu0 8
    (mkSurrogate (<[1%nat := [mu0]]> {[0%nat := []]}) (Some 1%nat) (Some [mu0])
                 None None)
    [] [mu0] (abs mu0) [] [] (J mu0) (J mu0) infinity 0.

(** The state after one pass, when the pass completes. *)
Definition next_state (p : Params) (st : State) : State :=
  match loop_body p box st with
  | Ok (Continue _ st') => st'
  | _ => st
  end.





End Quadratic.

(** ** Invariants of the surrogate *)

Section SurrogateState.
Context `{C : Collaborators}.

(** [s] has a committed pair: the reductor object [l] with state [r], and the
    reduced model [m]. *)
Definition committed (s : TRSurrogate) (l : nat) (r : Reductor) (m : Rom) : Prop :=
  reductor s = Some l /\ objs s !! l = Some r /\ rom s = Some m.

(** No pair is pending. *)
Definition idle (s : TRSurrogate) : Prop :=
  new_reductor s = None /\ new_rom s = None.

(** The store of [s'] holds every object of [s], unchanged. *)
Definition keeps_objects (s s' : TRSurrogate) : Prop :=
  forall k : nat, is_Some (objs s !! k) -> objs s' !! k = objs s !! k.

(** One of the two calls in the [try] block of [extend] raises. *)
Definition extension_fails (r : Reductor) (mu : Mu) : Prop :=
  snd (extend_basis r (fom_solve mu)) = false \/
  snd (reduce (fst (extend_basis r (fom_solve mu)))) = None.

(** The output functional of [m] is present and scalar: what the two
    assertions of [new_rom_output] ask for. *)
Definition scalar_output (m : Rom) : Prop :=
  rom_has_output_functional m = true /\ rom_output_dim m = 1.

(** The reduced model that is pending after [extend] at [mu], on a surrogate
    whose committed pair is the reductor state [r] and the model [m]. *)
Definition pending_rom (r : Reductor) (m : Rom) (mu : Mu) : Rom :=
  default m (snd (try_extend_and_reduce r (fom_solve mu))).

End SurrogateState.

Section LoopState.
Context `{C : Collaborators}.

(** The situation after the subproblem of a pass that starts in [st]: the
    surrogate has the committed pair ([l], [r], [m]) and nothing pending, the
    solver called as in the code returns the candidate [mu'] with the data
    [sub_data], and [a] is the AGC point. *)
Definition proposal (p : Params) (space : Space) (st : State)
    (l : nat) (r : Reductor) (m : Rom) (mu' : Mu) (sub_data : SubData) (a : Mu)
  : Prop :=
  committed (surrogate st) l r m /\ idle (surrogate st) /\
  error_aware_bfgs m space (mu st) (sub_params p)
    (error_aware_line_search_criterion m (beta p) (radius st)) = (mu', sub_data) /\
  agc_point sub_data = Some a.

(** The number of accepted passes in a log of [rejected] flags. *)
Definition accepted_count (log : list bool) : nat :=
  length (List.filter negb log).

(** What one complete pass does to the four lists of the record. *)
Definition record_step (rej : bool) (st st' : State) : Prop :=
  if rej then
    data_mus st' = data_mus st /\
    update_norms st' = update_norms st /\
    foc_norms st' = foc_norms st /\
    data_subproblem_data st' = data_subproblem_data st
  else
    exists (mu' : Mu) (update_norm foc : float) (sub_data : SubData),
      data_mus st' = data_mus st ++ [mu'] /\
      update_norms st' = update_norms st ++ [update_norm] /\
      foc_norms st' = foc_norms st ++ [foc] /\
      data_subproblem_data st' = data_subproblem_data st ++ [sub_data].

Definition is_TRError (e : exn) : bool :=
  match e with
  | TRError _ => true
  | _ => false
  end.

End LoopState.

Section RunState.
Context `{C : Collaborators}.

(** The first-order criticality that an accepting pass computes for the
    parameter it accepts. *)
Definition criticality_at (space : Space) (mu : Mu) : float :=
  linalg_norm (vsub mu (clip space (vsub mu (fom_output_d_mu mu)))).

(** How the locals of [trust_region] hang together between two passes of a
    run that started from the initial guess [mu0]. *)
Definition coherent (space : Space) (mu0 : Mu) (st : State) : Prop :=
  last (data_mus st) = Some (mu st) /\
  mu_norm st = linalg_norm (mu st) /\
  old_fom_output st = fom_output_at mu0 /\
  ((foc_norms st = [] /\ first_order_criticality st = infinity) \/
   (last (foc_norms st) = Some (first_order_criticality st) /\
    first_order_criticality st = criticality_at space (mu st))).

(** The largest value that [iteration] can reach. *)
Definition iteration_budget (p : Params) : Z := Z.max 0 (Z.max (miniter p) (maxiter p)).

End RunState.

(** ** [pymor.reductors.coercive_ipl3dg]: patches, mappings and the cached
    reduction

    Subdomains are numbered by integers.  [dd_grid.neighbors] and the
    inherited [_reduce] are not part of the file: they are parameters.  A
    dict is a list of its items in the order of insertion; a tuple made
    from a set, whose order Python does not fix, is a finite set. *)

Module IPL.

(** [l[i]] for a tuple or a list: a negative index counts from the end. *)
Definition py_getitem {A : Type} (l : list A) (i : Z) : res A :=
  let n := Z.of_nat (length l) in
  let j := if i <? 0 then i + n else i in
  if (0 <=? j) && (j <? n) then
    match l !! Z.to_nat j with
    | Some x => Ok x
    | None => Exc IndexError
    end
  else Exc IndexError.

(** The two closures that [construct_local_model] returns. *)
Definition local_to_global_mapping (local_elements : list Z) (i : Z) : res Z :=
  py_getitem local_elements i.

(** [for i_, j in enumerate(local_elements): if j == i: return i_], from the
    count [i_] on. *)
Fixpoint enumerate_find (i : Z) (i_ : Z) (local_elements : list Z) : Z :=
  match local_elements with
  | [] => -1
  | j :: rest => if j =? i then i_ else enumerate_find i (i_ + 1) rest
  end.

Definition global_to_local_mapping (local_elements : list Z) (i : Z) : Z :=
  enumerate_find i 0 local_elements.

(** [None]: a [ValueError], from [int] of a NaN or from [reshape].  The side
    [int(np.sqrt(num_subdomains))] is the integer square root as long as
    [num_subdomains] is below [2^52]. *)
Definition construct_inner_node_patches (num_subdomains : Z)
  : option (list (Z * list Z)) :=
  let side := Z.sqrt num_subdomains in
  if side * side =? num_subdomains then
    Some (i ← seqZ 0 (side - 1);
          j ← seqZ 0 (side - 1);
          [(i * side + j,
            [i * side + j; i * side + (j + 1);
             (i + 1) * side + j; (i + 1) * side + (j + 1)])])
  else None.

(** The numbers that numpy holds exactly, as [int64]. *)
Definition int64 (x : Z) : bool := (- 2 ^ 63 <=? x) && (x <? 2 ^ 63).

(** [list(np.sort(np.unique(l)))] for a list of integers that numpy holds
    as [int64]; [None]: some number lies beyond, where numpy takes another
    dtype and may merge neighbouring values (not modelled). *)
Definition sorted_unique (l : list Z) : option (list Z) :=
  if forallb int64 l then Some (merge_sort Z.le (remove_dups l)) else None.

(** [None]: as for [sorted_unique]. *)
Definition add_element_neighbors (neighbors : Z -> list Z)
    (domains : list (Z * list Z)) : option (list (Z * list Z)) :=
  mapM (fun item : Z * list Z =>
          new_elements ← sorted_unique (item.2 ≫= neighbors);
          Some (item.1, new_elements))
       domains.

(** [d[k]] for a dict; [None]: a [KeyError]. *)
Fixpoint dict_getitem {V : Type} (d : list (Z * V)) (k : Z) : option V :=
  match d with
  | [] => None
  | (k', v) :: rest => if k' =? k then Some v else dict_getitem rest k
  end.

Section EstimatorLoop.

(** [construct_local_model(elements, ...)] and the statements of a pass
    after the entry of [estimator_data] is stored build models, bases and
    residuals that are not modelled here; they may raise.  Whether they
    return is a parameter: of [elements] for the first, of the key and the
    stored triple for the second. *)
Variable local_model_returns : list Z -> bool.
Variable pass_rest_returns : Z -> list Z -> list Z -> list Z -> bool.

(** One pass of the loop over [estimator_domains.items()] in
    [CoerciveIPLD3GRBReductor.__init__]: the entry
    [(elements, node_elements, local_node_elements)] that it stores in
    [self.estimator_data]; [None]: the pass raises (in
    [construct_local_model], a [KeyError], or in the rest of the pass). *)
Definition estimator_entry (inner_node_patches : list (Z * list Z))
    (associated_element : Z) (elements : list Z)
  : option (Z * (list Z * list Z * list Z)) :=
  if local_model_returns elements then
    match dict_getitem inner_node_patches associated_element with
    | None => None
    | Some node_elements =>
        let local_node_elements :=
          global_to_local_mapping elements <$> node_elements in
        if pass_rest_returns associated_element elements node_elements
             local_node_elements
        then Some (associated_element,
                   (elements, node_elements, local_node_elements))
        else None
    end
  else None.

(** The dict [self.estimator_data] when the loop is over; [None]: the
    [ValueError] of the node patches, a pass that raises, or numbers beyond
    [int64]. *)
Definition estimator_data (neighbors : Z -> list Z) (num_subdomains : Z)
  : option (list (Z * (list Z * list Z * list Z))) :=
  inner_node_patches ← construct_inner_node_patches num_subdomains;
  estimator_domains ← add_element_neighbors neighbors inner_node_patches;
  mapM (fun item => estimator_entry inner_node_patches item.1 item.2)
       estimator_domains.

End EstimatorLoop.

(** The body of the innermost loop of [construct_element_patches]. *)
Definition add_corner (neighbors : Z -> list Z) (nh : gset Z) (nnn : Z) : gset Z :=
  if decide ((nnn ∉ nh) /\
             size ((list_to_set (neighbors nnn) : gset Z) ∩ nh) = 2%nat)
  then nh ∪ {[nnn]} else nh.

Definition element_patch (neighbors : Z -> list Z) (ss : Z) : gset Z :=
  foldl (fun nh nn => foldl (add_corner neighbors) nh (neighbors nn))
        ({[ss]} ∪ list_to_set (neighbors ss)) (neighbors ss).

Definition construct_element_patches (neighbors : Z -> list Z) (num_subdomains : Z)
  : list (gset Z) :=
  element_patch neighbors <$> seqZ 0 num_subdomains.

Section Reduce.
Context {V Rom Residuals Other : Type}.

(** The attributes of a [CoerciveIPLD3GRBReductor] that [reduce] reads or
    assigns; [None] in the last three: not assigned yet.  [other] stands
    for the remaining attributes. *)
Record Reductor : Type := mkReductor {
  S : nat;
  local_bases : list (list V);
  _last_rom : option Rom;
  _last_rom_dims : option Z;
  reduced_residuals : option Residuals;
  reduced_local_bases : option (list (list V));
  other : Other;
}.

Variable _reduce_residuals : Reductor -> Residuals.
Variable _reduce : Reductor -> Rom.

Definition basis_length (self : Reductor) : res (list Z) :=
  mapM (fun I : nat =>
          b ← py_getitem (local_bases self) (Z.of_nat I);
          Ok (Z.of_nat (length b)))
       (seq 0 (S self)).

(** [sum] of a list of integers. *)
Definition py_sum (l : list Z) : Z := foldl Z.add 0 l.

Definition rebuild (self : Reductor) : res (Reductor * Rom) :=
  let self1 := mkReductor (S self) (local_bases self) (_last_rom self)
                 (_last_rom_dims self) (Some (_reduce_residuals self))
                 (reduced_local_bases self) (other self) in
  let rom := _reduce self1 in
  lengths ← basis_length self1;
  Ok (mkReductor (S self) (local_bases self) (Some rom) (Some (py_sum lengths))
                 (Some (_reduce_residuals self)) (Some (local_bases self))
                 (other self),
      rom).

Definition reduce (self : Reductor) (dims : option (list Z)) : res (Reductor * Rom) :=
  _ ← py_assert (bool_decide (dims = None)) (Some "Cannot reduce to subbases, yet");
  match _last_rom self with
  | None => rebuild self
  | Some rom =>
      lengths ← basis_length self;
      match _last_rom_dims self with
      | None => Exc (AttributeError "_last_rom_dims")
      | Some d => if d <? py_sum lengths then rebuild self else Ok (self, rom)
      end
  end.

End Reduce.

(** The four neighbours of a subdomain in a quadrilateral grid of
    [side * side] subdomains, numbered row by row: an instance of
    [dd_grid.neighbors] for the examples. *)
Definition grid_neighbors (side : Z) (i : Z) : list Z :=
  (if side <=? i then [i - side] else []) ++
  (if 0 <? i mod side then [i - 1] else []) ++
  (if i mod side <? side - 1 then [i + 1] else []) ++
  (if i <? side * (side - 1) then [i + side] else []).

End IPL.

(** ** Vocabulary for the statements about the patches *)

Section PatchVocabulary.
Variable neighbors : Z -> list Z.

(** The number of neighbours of [y] that lie in [nh]. *)
Definition corners_of (y : Z) (nh : gset Z) : nat :=
  size ((list_to_set (neighbors y) : gset Z) ∩ nh).

End PatchVocabulary.

(** A reductor of two blocks with one and two basis vectors, whose reduced
    model is identified with its dimension, and the node patches of a grid
    of [3 * 3] subdomains: instances for the examples. *)
Module TwoBlocks.

Definition reduce_residuals (self : @IPL.Reductor unit Z unit unit) : unit := tt.

Definition reduce_model (self : @IPL.Reductor unit Z unit unit) : Z :=
  Z.of_nat (length (concat (IPL.local_bases self))).

Definition two_blocks : @IPL.Reductor unit Z unit unit :=
  IPL.mkReductor 2 [[tt]; [tt; tt]] None None None None tt.

Definition reduced : @IPL.Reductor unit Z unit unit :=
  IPL.mkReductor 2 [[tt]; [tt; tt]] (Some 3) (Some 3) (Some tt)
    (Some [[tt]; [tt; tt]]) tt.

Definition node_patches_3 : list (Z * list Z) :=
  [(0, [0; 1; 3; 4]); (1, [1; 2; 4; 5]); (3, [3; 4; 6; 7]); (4, [4; 5; 7; 8])].

End TwoBlocks.

(** * Properties *)

Section SurrogateFacts.
Context `{C : Collaborators}.

Lemma fresh_not_allocated (o : gmap nat Reductor) : o !! fresh (dom o) = None.
Proof. apply not_elem_of_dom, is_fresh. Qed.

Lemma insert_fresh_keeps (o : gmap nat Reductor) (r : Reductor) (k : nat) :
  is_Some (o !! k) -> <[fresh (dom o) := r]> o !! k = o !! k.
Proof.
  intros Hk. apply lookup_insert_ne. intros <-.
  rewrite fresh_not_allocated in Hk. by destruct Hk.
Qed.

Lemma try_fails_iff (r : Reductor) (mu : Mu) :
  snd (try_extend_and_reduce r (fom_solve mu)) = None <-> extension_fails r mu.
Proof.
  unfold try_extend_and_reduce, extension_fails.
  destruct (extend_basis r (fom_solve mu)) as [r1 [|]]; simpl.
  - split; [by right | by intros [|]].
  - split; [by left | done].
Qed.

(** What [extend] does on a surrogate that has a committed pair. *)
Lemma extend_committed (s : TRSurrogate) l r m (mu : Mu) :
  committed s l r m ->
  extend s mu =
    let l' := fresh (dom (objs s)) in
    let o := <[l' := fst (try_extend_and_reduce r (fom_solve mu))]> (objs s) in
    match snd (try_extend_and_reduce r (fom_solve mu)) with
    | Some m' => Ok (mkSurrogate o (Some l) (Some m) (Some l') (Some m'))
    | None => Ok (mkSurrogate o (Some l) (Some m) (Some l) (Some m))
    end.
Proof.
  intros (Hl & Hr & Hm). unfold extend, extend_fallback, the_rom.
  rewrite Hl, Hr, Hm.
  by destruct (try_extend_and_reduce r (fom_solve mu)) as [r' [m'|]].
Qed.

Lemma pending_rom_failed (r : Reductor) (m : Rom) (mu : Mu) :
  extension_fails r mu -> pending_rom r m mu = m.
Proof. intros H%try_fails_iff. unfold pending_rom. by rewrite H. Qed.

(** [extend] returns, keeps the committed pair and leaves a pair pending:
    the committed pair itself when the attempt failed. *)
Lemma extend_spec (s : TRSurrogate) l r m (mu : Mu) :
  committed s l r m ->
  exists s', extend s mu = Ok s' /\ committed s' l r m /\ keeps_objects s s' /\
             new_rom s' = Some (pending_rom r m mu) /\
             (extension_fails r mu -> new_reductor s' = Some l).
Proof.
  intros Hc. rewrite (extend_committed s l r m mu Hc).
  destruct Hc as (Hl & Hr & Hm). cbv zeta.
  unfold pending_rom.
  destruct (snd (try_extend_and_reduce r (fom_solve mu))) as [m'|] eqn:Htry;
    eexists; (split; [reflexivity|]); unfold committed, keeps_objects; simpl;
    (split_and!; [done | by rewrite insert_fresh_keeps | done
                 | by intros k Hk; apply insert_fresh_keeps | done
                 | intros Hf%try_fails_iff; congruence ]).
Qed.

Lemma extend_keeps (s s' : TRSurrogate) (mu : Mu) :
  extend s mu = Ok s' ->
  reductor s' = reductor s /\ rom s' = rom s /\ keeps_objects s s'.
Proof.
  unfold extend, extend_fallback, the_rom, keeps_objects.
  destruct (reductor s) as [l|] eqn:Hl.
  - destruct (objs s !! l) as [r0|]; [|done].
    destruct (try_extend_and_reduce r0 (fom_solve mu)) as [r' [m'|]].
    + intros [= <-]; simpl. split_and!; [done..|].
      intros k Hk. by apply insert_fresh_keeps.
    + destruct (rom s) as [m|]; [|done]. intros [= <-]; simpl.
      split_and!; [done..|]. intros k Hk. by apply insert_fresh_keeps.
  - destruct (rom s) as [m|]; [|done]. by intros [= <-].
Qed.

Lemma accept_spec (s : TRSurrogate) (m' : Rom) :
  new_rom s = Some m' ->
  accept s = Ok (mkSurrogate (objs s) (new_reductor s) (Some m') None None).
Proof. unfold accept. by intros ->. Qed.

(** C8 (amended): on a surrogate that has a committed pair, a failure of
    the basis extension or of the re-reduction inside [extend] raises
    nothing: [extend] returns with the pending pair aliasing the committed
    pair ([new_reductor] is the identity of the committed reductor object,
    [new_rom] the committed model), the committed pair and every object of
    the store are as before, and accepting this pending pair commits the
    same pair again. *)
Theorem extend_failure_falls_back (s : TRSurrogate) l r m (mu : Mu) :
  committed s l r m ->
  extension_fails r mu ->
  exists s',
    extend s mu = Ok s' /\
    new_reductor s' = reductor s /\ new_rom s' = rom s /\
    committed s' l r m /\ keeps_objects s s' /\
    exists s'', accept s' = Ok s'' /\ committed s'' l r m /\ idle s''.
Proof.
  intros Hc Hfail.
  destruct (extend_spec s l r m mu Hc) as (s' & He & Hc' & Hk & Hnew & Hal).
  rewrite (pending_rom_failed r m mu Hfail) in Hnew. specialize (Hal Hfail).
  destruct Hc as (Hl & Hr & Hm). destruct Hc' as (Hl' & Hr' & Hm').
  exists s'. split_and!; [done | congruence | congruence | done | done |].
  rewrite (accept_spec s' m Hnew). eexists. split; [reflexivity|].
  unfold committed, idle; simpl. by rewrite Hal.
Qed.

End SurrogateFacts.

Section LoopFacts.
Context `{C : Collaborators}.
Variables (p : Params) (space : Space).

Lemma agc_point_single (sub_data : SubData) (m0 : Mu) :
  sub_mus sub_data = [m0] -> agc_point sub_data = Some m0.
Proof. unfold agc_point. by intros ->. Qed.

Lemma agc_point_progress (sub_data : SubData) (m0 m1 : Mu) (rest : list Mu) :
  sub_mus sub_data = m0 :: m1 :: rest -> agc_point sub_data = Some m1.
Proof. unfold agc_point. by intros ->. Qed.

Lemma committed_rom (s : TRSurrogate) l r m :
  committed s l r m -> the_rom s = Ok m.
Proof. intros (_ & _ & Hm). unfold the_rom. by rewrite Hm. Qed.

Lemma reject_idle (s : TRSurrogate) : idle s -> reject s = s.
Proof. destruct s as [o l m nl nm]. unfold idle, reject; simpl. by intros [-> ->]. Qed.

(** The [rejected] flag and the fields that the output checks leave alone. *)
Lemma output_checks_inv (st : State) (mu' : Mu) (sub_data : SubData) (c : Checked) :
  output_checks p st mu' sub_data = Ok c ->
  if rejected c then
    checked_radius c = (radius st * shrink_factor p)%float /\
    (checked_surrogate c = surrogate st \/
     extend (surrogate st) mu' = Ok (checked_surrogate c))
  else
    extend (surrogate st) mu' = Ok (checked_surrogate c) /\
    exists current_fom_output,
      checked_radius c = confident_radius p st current_fom_output (current_output c).
Proof.
  unfold output_checks.
  destruct (agc_point sub_data) as [a|]; [|done]. simpl.
  destruct (rom_output (surrogate st) a) as [A|]; [|done]. simpl.
  destruct (estimate_output_error (surrogate st) mu') as [err|]; [|done]. simpl.
  destruct (rom_output (surrogate st) mu') as [S|]; [|done]. simpl.
  destruct (S + err <? A)%float.
  - destruct (extend (surrogate st) mu') as [s1|]; [|done]. simpl.
    intros [= <-]; simpl. split; [done|]. by eexists.
  - destruct (A <? S - err)%float.
    + intros [= <-]; simpl. split; [done|]. by left.
    + destruct (extend (surrogate st) mu') as [s1|]; [|done]. simpl.
      destruct (new_rom_output s1 mu') as [U|]; [|done]. simpl.
      destruct (U <=? A)%float; intros [= <-]; simpl.
      * split; [done|]. by eexists.
      * split; [done|]. by right.
Qed.

(** A pass that rejects: everything but the radius, the counter and the
    store is as before. *)
Lemma propose_and_decide_rejected (st st' : State) :
  propose_and_decide p space st = Ok (true, st') ->
  exists s1,
    reductor s1 = reductor (surrogate st) /\ rom s1 = rom (surrogate st) /\
    keeps_objects (surrogate st) s1 /\
    st' = mkState (mu st) (radius st * shrink_factor p)%float (reject s1)
                  (data_subproblem_data st) (data_mus st) (mu_norm st)
                  (update_norms st) (foc_norms st)
                  (old_rom_output st) (old_fom_output st)
                  (first_order_criticality st) (iteration st + 1).
Proof.
  unfold propose_and_decide.
  destruct (the_rom (surrogate st)) as [r|]; [|done]. simpl.
  destruct (error_aware_bfgs _ _ _ _ _) as [mu' sub_data].
  destruct (output_checks p st mu' sub_data) as [c|] eqn:Hc; [|done]. simpl.
  apply output_checks_inv in Hc. unfold handle_rejection.
  destruct (rejected c); simpl.
  - intros [= <-]. destruct Hc as [-> Hs]. exists (checked_surrogate c).
    split_and!; [| | |done].
    + destruct Hs as [->|Hs]; [done|]. by apply extend_keeps in Hs as (? & _).
    + destruct Hs as [->|Hs]; [done|]. by apply extend_keeps in Hs as (_ & ? & _).
    + destruct Hs as [->|Hs]; [by intros k _|].
      by apply extend_keeps in Hs as (_ & _ & ?).
  - by destruct (accept (checked_surrogate c)).
Qed.

(** A pass that accepts: the surrogate was extended at the candidate and the
    pending pair committed; every list of the record got one entry. *)
Lemma propose_and_decide_accepted (st st' : State) :
  propose_and_decide p space st = Ok (false, st') ->
  exists mu' sub_data s1 radius' current_output,
    extend (surrogate st) mu' = Ok s1 /\ accept s1 = Ok (surrogate st') /\
    let foc := linalg_norm (vsub mu' (clip space (vsub mu' (fom_output_d_mu mu')))) in
    st' = mkState mu' radius' (surrogate st')
                  (data_subproblem_data st ++ [sub_data]) (data_mus st ++ [mu'])
                  (linalg_norm mu')
                  (update_norms st ++ [linalg_norm (vsub mu' (mu st))])
                  (foc_norms st ++ [foc])
                  current_output (old_fom_output st) foc (iteration st + 1).
Proof.
  unfold propose_and_decide.
  destruct (the_rom (surrogate st)) as [r|]; [|done]. simpl.
  destruct (error_aware_bfgs _ _ _ _ _) as [mu' sub_data].
  destruct (output_checks p st mu' sub_data) as [c|] eqn:Hc; [|done]. simpl.
  apply output_checks_inv in Hc. unfold handle_rejection.
  destruct (rejected c); simpl; [done|].
  destruct Hc as [Hs _].
  destruct (accept (checked_surrogate c)) as [s2|] eqn:Ha; [|done]. simpl.
  intros [= <-]. by exists mu', sub_data, (checked_surrogate c), (checked_radius c),
                       (current_output c).
Qed.

Lemma accept_idle (s s' : TRSurrogate) : accept s = Ok s' -> idle s'.
Proof. unfold accept. destruct (new_rom s); [|done]. by intros [= <-]. Qed.

(** Whatever a pass decides, it leaves no pair pending. *)
Lemma propose_and_decide_idle (st st' : State) (rej : bool) :
  propose_and_decide p space st = Ok (rej, st') -> idle (surrogate st').
Proof.
  destruct rej; intros H.
  - apply propose_and_decide_rejected in H as (s1 & _ & _ & _ & ->). done.
  - apply propose_and_decide_accepted in H as (? & ? & ? & ? & ? & _ & Ha & _).
    by apply accept_idle in Ha.
Qed.

(** The shapes of a pass. *)
Lemma loop_body_continue (st st' : State) (rej : bool) :
  loop_body p space st = Ok (Continue rej st') <->
  termination_check p st = Proceed /\
  propose_and_decide p space st = Ok (rej, st') /\ isfinite (mu_norm st') = true.
Proof.
  unfold loop_body.
  destruct (termination_check p st); try (split; [done | by intros [? _]]).
  destruct (propose_and_decide p space st) as [[rej' st'']|]; simpl.
  - destruct (isfinite (mu_norm st'')) eqn:Hf; simpl.
    + split; [by intros [= -> ->] | by intros (_ & [= -> ->] & _)].
    + split; [done | intros (_ & [= -> ->] & ?); congruence].
  - split; [done | by intros (_ & ? & _)].
Qed.

Lemma loop_body_break (st st' : State) :
  loop_body p space st = Ok (Break st') <->
  termination_check p st = Converged /\ st' = st.
Proof.
  unfold loop_body. destruct (termination_check p st).
  - split; [by intros [= <-] | by intros [_ ->]].
  - split; [done | by intros [? _]].
  - destruct (propose_and_decide p space st) as [[rej' st'']|]; simpl.
    + destruct (negb (isfinite (mu_norm st''))); split; (done || by intros [? _]).
    + split; [done | by intros [? _]].
Qed.

Lemma termination_check_spec (st : State) :
  match termination_check p st with
  | Converged =>
      miniter p <= iteration st /\
      (first_order_criticality st <? tol_criticality p)%float = true
  | Exhausted =>
      miniter p <= iteration st /\
      (first_order_criticality st <? tol_criticality p)%float = false /\
      maxiter p <= iteration st
  | Proceed =>
      iteration st < miniter p \/
      ((first_order_criticality st <? tol_criticality p)%float = false /\
       iteration st < maxiter p)
  end.
Proof.
  unfold termination_check.
  destruct (Z.leb_spec (miniter p) (iteration st)); [|by left].
  destruct (first_order_criticality st <? tol_criticality p)%float; [done|].
  destruct (Z.leb_spec (maxiter p) (iteration st)); [done|by right].
Qed.

End LoopFacts.

(** ** The three-way test *)

Section Classification.
Context `{C : Collaborators}.
Variables (p : Params) (space : Space).

Lemma new_rom_output_scalar (s : TRSurrogate) (m' : Rom) (mu : Mu) :
  new_rom s = Some m' -> scalar_output m' ->
  new_rom_output s mu = Ok (rom_output_at m' mu).
Proof.
  intros Hn [Hf Hd]. unfold new_rom_output. rewrite Hn, Hf, Hd. reflexivity.
Qed.

(** The pass and its output checks, once the solver has answered. *)
Lemma propose_under_proposal st l r m mu' sub_data a :
  proposal p space st l r m mu' sub_data a ->
  propose_and_decide p space st =
    (c ← output_checks p st mu' sub_data;
     st' ← handle_rejection space st (mu st) mu' sub_data c;
     Ok (rejected c, st')).
Proof.
  intros (Hc & _ & Hb & _). unfold propose_and_decide.
  rewrite (committed_rom _ _ _ _ Hc). simpl. by rewrite Hb.
Qed.

Lemma checks_under_proposal st l r m mu' sub_data a :
  proposal p space st l r m mu' sub_data a ->
  exists s1,
    extend (surrogate st) mu' = Ok s1 /\ committed s1 l r m /\
    keeps_objects (surrogate st) s1 /\
    new_rom s1 = Some (pending_rom r m mu') /\
    (extension_fails r mu' -> new_reductor s1 = Some l) /\
    output_checks p st mu' sub_data =
      let S := rom_output_at m mu' in
      let err := rom_estimate_output_error m mu' in
      let A := rom_output_at m a in
      if (S + err <? A)%float then
        Ok (mkChecked false s1 (confident_radius p st (fom_output_at mu') S) S)
      else if (A <? S - err)%float then
        Ok (mkChecked true (surrogate st) (radius st * shrink_factor p)%float S)
      else
        U ← new_rom_output s1 mu';
        if (U <=? A)%float then
          Ok (mkChecked false s1 (confident_radius p st (fom_output_at mu') U) U)
        else Ok (mkChecked true s1 (radius st * shrink_factor p)%float U).
Proof.
  intros (Hc & _ & _ & Ha).
  destruct (extend_spec _ l r m mu' Hc) as (s1 & He & Hc1 & Hk & Hn & Hal).
  exists s1. split_and!; try done.
  unfold output_checks, rom_output, estimate_output_error.
  rewrite Ha, (committed_rom _ _ _ _ Hc), He. simpl.
  destruct (_ <? _)%float; [done|]. by destruct (_ <? _)%float.
Qed.

(** C1: after the subproblem of a pass, with [S] the committed reduced
    output at the candidate [mu'], [err] the estimated output error there and
    [A] the committed reduced output at the AGC point (the second entry of
    the solver's list of iterates, or its only entry): if [S + err < A], the
    surrogate is extended at [mu'] ([extend] puts a copy of the committed
    reductor, extended by the solution at [mu'], into the store under a
    fresh identity and leaves it pending with its reduced model, or leaves
    the committed pair pending when the attempt failed), the pending pair
    is committed and [mu'] becomes the parameter, and the radius is divided
    by [shrink_factor]
    exactly when [old_fom_output - fom_output(mu') >= radius_tol *
    (old_rom_output - S)], being unchanged otherwise; if instead
    [S - err > A], the first test having failed, the candidate is rejected,
    the surrogate is not touched (no extension is attempted), the parameter
    stays and the radius is multiplied by [shrink_factor]. *)
Theorem optimistic_and_pessimistic_case st l r m mu' sub_data a :
  proposal p space st l r m mu' sub_data a ->
  let S := rom_output_at m mu' in
  let err := rom_estimate_output_error m mu' in
  let A := rom_output_at m a in
  (forall m0, sub_mus sub_data = [m0] -> a = m0) /\
  (forall m0 m1 rest, sub_mus sub_data = m0 :: m1 :: rest -> a = m1) /\
  ((S + err <? A)%float = true ->
   let l' := fresh (dom (objs (surrogate st))) in
   let r' := fst (try_extend_and_reduce r (fom_solve mu')) in
   exists s1 st',
     extend (surrogate st) mu' = Ok s1 /\
     objs s1 = <[l' := r']> (objs (surrogate st)) /\
     committed s1 l r m /\
     new_rom s1 = Some (pending_rom r m mu') /\
     (extension_fails r mu' -> new_reductor s1 = Some l) /\
     (~ extension_fails r mu' -> new_reductor s1 = Some l') /\
     accept s1 = Ok (surrogate st') /\
     surrogate st' =
       mkSurrogate (objs s1) (new_reductor s1) (Some (pending_rom r m mu'))
                   None None /\
     propose_and_decide p space st = Ok (false, st') /\
     mu st' = mu' /\
     radius st' =
       if (radius_tol p * (old_rom_output st - S)
             <=? old_fom_output st - fom_output_at mu')%float
       then (radius st / shrink_factor p)%float
       else radius st) /\
  ((S + err <? A)%float = false -> (A <? S - err)%float = true ->
   exists st',
     propose_and_decide p space st = Ok (true, st') /\
     surrogate st' = surrogate st /\
     mu st' = mu st /\
     radius st' = (radius st * shrink_factor p)%float).
Proof.
  intros Hp S err A.
  destruct (checks_under_proposal _ _ _ _ _ _ _ Hp)
    as (s1 & He & Hc1 & _ & Hn & Hal & Hchk).
  rewrite (propose_under_proposal _ _ _ _ _ _ _ Hp), Hchk. cbv zeta.
  fold S err A. split_and!.
  - intros m0 Hm. apply agc_point_single in Hm.
    destruct Hp as (_ & _ & _ & Ha). congruence.
  - intros m0 m1 rest Hm. apply agc_point_progress in Hm.
    destruct Hp as (_ & _ & _ & Ha). congruence.
  - intros ->. simpl. unfold handle_rejection; simpl.
    rewrite (accept_spec s1 _ Hn). simpl.
    assert (Hc : committed (surrogate st) l r m) by apply Hp.
    pose proof He as He'. rewrite (extend_committed _ l r m mu' Hc) in He'.
    cbv zeta in He'.
    eexists s1, _.
    split_and!.
    9: reflexivity.
    all: simpl; try done.
    + destruct (snd (try_extend_and_reduce r (fom_solve mu')));
        by injection He' as <-.
    + intros Hok. destruct (snd (try_extend_and_reduce r (fom_solve mu'))) eqn:Ht.
      * by injection He' as <-.
      * destruct Hok. by apply try_fails_iff.
    + by apply accept_spec.
  - intros -> ->. simpl. unfold handle_rejection; simpl.
    eexists. split_and!; [reflexivity | | done | done]. simpl.
    apply reject_idle. by destruct Hp as (_ & ? & _).
Qed.

(** C7 (amended): when neither [S + err < A] nor [S - err > A] holds, the
    surrogate is extended at [mu'] and, with [U] the output of the pending
    reduced model at [mu']: if [U <= A] the pending pair is committed and
    [mu'] becomes the parameter, the radius being divided by [shrink_factor]
    exactly when [old_fom_output - fom_output(mu') >= radius_tol *
    (old_rom_output - U)] (the drop is taken to the updated output [U], not
    to [S]) and unchanged otherwise; if not, the candidate is rejected, the
    pending pair is dropped, the committed pair and the parameter stay and
    the radius is multiplied by [shrink_factor]. *)
Theorem ambiguous_case st l r m mu' sub_data a :
  proposal p space st l r m mu' sub_data a ->
  let S := rom_output_at m mu' in
  let err := rom_estimate_output_error m mu' in
  let A := rom_output_at m a in
  let U := rom_output_at (pending_rom r m mu') mu' in
  scalar_output (pending_rom r m mu') ->
  (S + err <? A)%float = false ->
  (A <? S - err)%float = false ->
  exists s1,
    extend (surrogate st) mu' = Ok s1 /\
    new_rom s1 = Some (pending_rom r m mu') /\
    ((U <=? A)%float = true ->
     exists st',
       accept s1 = Ok (surrogate st') /\
       propose_and_decide p space st = Ok (false, st') /\
       mu st' = mu' /\
       radius st' =
         if (radius_tol p * (old_rom_output st - U)
               <=? old_fom_output st - fom_output_at mu')%float
         then (radius st / shrink_factor p)%float
         else radius st) /\
    ((U <=? A)%float = false ->
     exists st',
       propose_and_decide p space st = Ok (true, st') /\
       surrogate st' = reject s1 /\
       committed (surrogate st') l r m /\ idle (surrogate st') /\
       mu st' = mu st /\
       radius st' = (radius st * shrink_factor p)%float).
Proof.
  intros Hp S err A U Hscalar Hopt Hpess.
  destruct (checks_under_proposal _ _ _ _ _ _ _ Hp)
    as (s1 & He & Hc1 & _ & Hn & _ & Hchk).
  exists s1. split; [done|]. split; [done|].
  rewrite (propose_under_proposal _ _ _ _ _ _ _ Hp), Hchk. cbv zeta.
  fold S err A. rewrite Hopt, Hpess.
  rewrite (new_rom_output_scalar s1 _ mu' Hn Hscalar). fold U. simpl. split.
  - intros ->. simpl. unfold handle_rejection; simpl.
    rewrite (accept_spec s1 _ Hn). simpl.
    eexists. split_and!; [| reflexivity | done | done]. reflexivity.
  - intros ->. simpl. unfold handle_rejection; simpl.
    eexists. split_and!; [reflexivity | done | | done | done | done].
    simpl. by destruct Hc1 as (? & ? & ?).
Qed.

End Classification.

(** ** Runs of the outer loop *)

Section Runs.
Context `{C : Collaborators}.
Variables (p : Params) (space : Space).

Lemma passes_snoc st log st1 rej st2 :
  passes p space st log st1 ->
  loop_body p space st1 = Ok (Continue rej st2) ->
  passes p space st (log ++ [rej]) st2.
Proof.
  induction 1 as [st|st rej0 sta log stb Hb _ IH]; intros Hlast; simpl.
  - eapply passes_cons; [exact Hlast | constructor].
  - eapply passes_cons; [exact Hb | by apply IH].
Qed.

Lemma pass_record st rej st' :
  loop_body p space st = Ok (Continue rej st') -> record_step rej st st'.
Proof.
  intros (_ & H & _)%loop_body_continue. destruct rej; simpl.
  - by apply propose_and_decide_rejected in H as (s1 & _ & _ & _ & ->).
  - apply propose_and_decide_accepted in H
      as (mu' & sub_data & s1 & radius' & cur & _ & _ & ->). simpl. by eexists _, _, _, _.
Qed.

Lemma pass_iteration st rej st' :
  loop_body p space st = Ok (Continue rej st') -> iteration st' = iteration st + 1.
Proof.
  intros (_ & H & _)%loop_body_continue. destruct rej.
  - by apply propose_and_decide_rejected in H as (s1 & _ & _ & _ & ->).
  - by apply propose_and_decide_accepted in H
      as (mu' & sub_data & s1 & radius' & cur & _ & _ & ->).
Qed.

Lemma passes_iteration st log st' :
  passes p space st log st' -> iteration st' = iteration st + Z.of_nat (length log).
Proof.
  induction 1 as [st|st rej sta log stb Hb _ IH]; simpl length.
  - lia.
  - apply pass_iteration in Hb. lia.
Qed.

(** Each list of the record grows at its end, by one entry per accepted
    pass. *)
Lemma passes_record st log st' :
  passes p space st log st' ->
  (exists l, data_mus st' = data_mus st ++ l /\ length l = accepted_count log) /\
  (exists l, update_norms st' = update_norms st ++ l /\ length l = accepted_count log) /\
  (exists l, foc_norms st' = foc_norms st ++ l /\ length l = accepted_count log) /\
  (exists l, data_subproblem_data st' = data_subproblem_data st ++ l /\
             length l = accepted_count log).
Proof.
  induction 1 as [st|st rej sta log stb Hb _ IH].
  - split_and!; exists []; by rewrite app_nil_r.
  - apply pass_record in Hb.
    destruct IH as ((l1 & E1 & L1) & (l2 & E2 & L2) & (l3 & E3 & L3) & (l4 & E4 & L4)).
    unfold accepted_count in *. destruct rej; simpl in Hb |- *.
    + destruct Hb as (H1 & H2 & H3 & H4).
      rewrite E1, E2, E3, E4, H1, H2, H3, H4. split_and!; by eexists.
    + destruct Hb as (mu' & u & f & sd & H1 & H2 & H3 & H4).
      rewrite E1, E2, E3, E4, H1, H2, H3, H4, <- !app_assoc. simpl.
      split_and!; eexists; (split; [reflexivity|]); simpl; by f_equal.
Qed.

(** A run that leaves the loop normally: complete passes, then a [break]. *)
Lemma loop_returns (fuel : nat) st st' :
  trust_region_loop p space fuel st = Some (Ok st') ->
  exists log, passes p space st log st' /\ loop_body p space st' = Ok (Break st').
Proof.
  revert st. induction fuel as [|fuel IH]; intros st; simpl; [done|].
  destruct (loop_body p space st) as [[stb|rej st1]|e] eqn:Hb; [| |done].
  - intros [= <-]. exists [].
    apply loop_body_break in Hb as [Hc ->]. split; [constructor|].
    by apply loop_body_break.
  - intros (log & Hp & Hbr)%IH. exists (rej :: log). split; [|done].
    by eapply passes_cons.
Qed.

(** A run that breaks in the pass after [log]. *)
Lemma loop_breaks st log st' :
  passes p space st log st' ->
  loop_body p space st' = Ok (Break st') ->
  forall fuel, (length log < fuel)%nat ->
    trust_region_loop p space fuel st = Some (Ok st').
Proof.
  induction 1 as [st|st rej sta log stb Hb _ IH]; intros He fuel Hfuel;
    (destruct fuel as [|fuel]; [simpl in Hfuel; lia|]); simpl.
  - by rewrite He.
  - rewrite Hb. apply IH; [done|]. simpl in Hfuel. lia.
Qed.

(** A run that raises in the pass after [log]. *)
Lemma loop_raises st log st' (e : exn) :
  passes p space st log st' ->
  loop_body p space st' = Exc e ->
  forall fuel, (length log < fuel)%nat ->
    trust_region_loop p space fuel st = Some (Exc e).
Proof.
  induction 1 as [st|st rej sta log stb Hb _ IH]; intros He fuel Hfuel;
    (destruct fuel as [|fuel]; [simpl in Hfuel; lia|]); simpl.
  - by rewrite He.
  - rewrite Hb. apply IH; [done|]. simpl in Hfuel. lia.
Qed.

(** More fuel does not change what a run that ended returns or raises. *)
Lemma loop_fuel_monotone (fuel fuel' : nat) st (x : res State) :
  trust_region_loop p space fuel st = Some x ->
  (fuel <= fuel')%nat ->
  trust_region_loop p space fuel' st = Some x.
Proof.
  revert fuel' st. induction fuel as [|fuel IH]; intros fuel' st; simpl; [done|].
  intros Hrun Hle. destruct fuel' as [|fuel']; [lia|]. simpl.
  destruct (loop_body p space st) as [[stb|rej st1]|e]; [done| |done].
  apply IH; [done|lia].
Qed.

(** C4: after a pass that rejected its candidate, the parameter, the
    committed reductor (its identity and the state of every object of the
    store) and the committed reduced model are what they were when the pass
    began, no pair is pending, and nothing else has changed but the radius,
    multiplied by [shrink_factor], and the iteration counter, one up. *)
Theorem rejected_pass_rolls_back st st' :
  idle (surrogate st) ->
  loop_body p space st = Ok (Continue true st') ->
  mu st' = mu st /\
  reductor (surrogate st') = reductor (surrogate st) /\
  rom (surrogate st') = rom (surrogate st) /\
  keeps_objects (surrogate st) (surrogate st') /\
  new_reductor (surrogate st') = new_reductor (surrogate st) /\
  new_rom (surrogate st') = new_rom (surrogate st) /\
  radius st' = (radius st * shrink_factor p)%float /\
  iteration st' = iteration st + 1 /\
  data_mus st' = data_mus st /\
  data_subproblem_data st' = data_subproblem_data st /\
  update_norms st' = update_norms st /\
  foc_norms st' = foc_norms st /\
  mu_norm st' = mu_norm st /\
  old_rom_output st' = old_rom_output st /\
  old_fom_output st' = old_fom_output st /\
  first_order_criticality st' = first_order_criticality st.
Proof.
  intros [Hnr Hnm] (_ & H & _)%loop_body_continue.
  apply propose_and_decide_rejected in H as (s1 & Hr & Hm & Hk & ->). simpl.
  by rewrite Hnr, Hnm.
Qed.

End Runs.

(** ** What is raised, and when *)

Section Raising.
Context `{C : Collaborators}.
Variables (p : Params) (space : Space).

Lemma the_rom_raises (s : TRSurrogate) e : the_rom s = Exc e -> is_TRError e = false.
Proof. unfold the_rom. destruct (rom s); [done|]. by intros [= <-]. Qed.

Lemma extend_raises (s : TRSurrogate) (mu : Mu) e :
  extend s mu = Exc e -> is_TRError e = false.
Proof.
  unfold extend, extend_fallback.
  destruct (reductor s) as [l|].
  - destruct (objs s !! l) as [r0|]; [|by intros [= <-]].
    destruct (try_extend_and_reduce r0 (fom_solve mu)) as [r' [m'|]]; [done|].
    destruct (the_rom s) eqn:Hr; [done|]. simpl. intros [= <-].
    by eapply the_rom_raises.
  - destruct (the_rom s) eqn:Hr; [done|]. simpl. intros [= <-].
    by eapply the_rom_raises.
Qed.

Lemma new_rom_output_raises (s : TRSurrogate) (mu : Mu) e :
  new_rom_output s mu = Exc e -> is_TRError e = false.
Proof.
  unfold new_rom_output, py_assert. destruct (new_rom s) as [m|]; [|by intros [= <-]].
  destruct (rom_has_output_functional m); simpl; [|by intros [= <-]].
  destruct (rom_output_dim m =? 1); simpl; [done|by intros [= <-]].
Qed.

Lemma accept_raises (s : TRSurrogate) e : accept s = Exc e -> is_TRError e = false.
Proof. unfold accept. destruct (new_rom s); [done|]. by intros [= <-]. Qed.

Lemma output_checks_raises st (mu' : Mu) (sub_data : SubData) e :
  output_checks p st mu' sub_data = Exc e -> is_TRError e = false.
Proof.
  unfold output_checks, rom_output, estimate_output_error.
  destruct (agc_point sub_data) as [a|]; [|by intros [= <-]]. simpl.
  destruct (the_rom (surrogate st)) as [m|e0] eqn:Hm; simpl;
    [|intros [= <-]; by eapply the_rom_raises].
  destruct (_ <? _)%float.
  - destruct (extend (surrogate st) mu') eqn:He; [done|]. simpl.
    intros [= <-]. by eapply extend_raises.
  - destruct (_ <? _)%float; [done|].
    destruct (extend (surrogate st) mu') as [s1|] eqn:He; simpl;
      [|intros [= <-]; by eapply extend_raises].
    destruct (new_rom_output s1 mu') as [U|] eqn:Hn; simpl;
      [|intros [= <-]; by eapply new_rom_output_raises].
    by destruct (_ <=? _)%float.
Qed.

(** No convergence failure is raised between [iteration += 1] and the end of
    the accept/reject handling. *)
Lemma propose_and_decide_raises st e :
  propose_and_decide p space st = Exc e -> is_TRError e = false.
Proof.
  unfold propose_and_decide.
  destruct (the_rom (surrogate st)) as [m|e0] eqn:Hm; simpl;
    [|intros [= <-]; by eapply the_rom_raises].
  destruct (error_aware_bfgs _ _ _ _ _) as [mu' sub_data].
  destruct (output_checks p st mu' sub_data) as [c|] eqn:Hc; simpl;
    [|intros [= <-]; by eapply output_checks_raises].
  unfold handle_rejection. destruct (negb (rejected c)); [|done].
  destruct (accept (checked_surrogate c)) eqn:Ha; [done|]. simpl.
  intros [= <-]. by eapply accept_raises.
Qed.

Lemma termination_check_exhausted st :
  termination_check p st = Exhausted <->
  miniter p <= iteration st /\ maxiter p <= iteration st /\
  (first_order_criticality st <? tol_criticality p)%float = false.
Proof.
  unfold termination_check.
  destruct (Z.leb_spec (miniter p) (iteration st)); [|split; [done|lia]].
  destruct (first_order_criticality st <? tol_criticality p)%float;
    [split; [done|by intros (_ & _ & ?)]|].
  destruct (Z.leb_spec (maxiter p) (iteration st)); [done|split; [done|lia]].
Qed.

Lemma messages_differ : max_iterations_msg <> not_finite_msg.
Proof. done. Qed.

(** The two places where [loop_body] raises a [TRError]. *)
Lemma loop_body_TRError st (msg : string) :
  loop_body p space st = Exc (TRError msg) <->
  (msg = max_iterations_msg /\ termination_check p st = Exhausted) \/
  (msg = not_finite_msg /\ termination_check p st = Proceed /\
   exists rej st', propose_and_decide p space st = Ok (rej, st') /\
                   isfinite (mu_norm st') = false).
Proof.
  unfold loop_body. destruct (termination_check p st).
  - split; [done|]. by intros [[_ ?]|(_ & ? & _)].
  - split.
    + intros [= <-]. by left.
    + intros [[-> _]|(_ & ? & _)]; done.
  - destruct (propose_and_decide p space st) as [[rej st']|e] eqn:Hpd; simpl.
    + destruct (isfinite (mu_norm st')) eqn:Hf; simpl.
      * split; [done|]. intros [[_ ?]|(_ & _ & ? & ? & [= <- <-] & ?)]; [done|].
        congruence.
      * split.
        -- intros [= <-]. right. split_and!; [done..|]. by eexists _, _.
        -- by intros [[_ ?]|(-> & _)].
    + split.
      * intros [= ->]. by apply propose_and_decide_raises in Hpd.
      * by intros [[_ ?]|(_ & _ & ? & ? & ? & _)].
Qed.


End Raising.

(** ** When [fom.solve] or the subproblem solver raises *)

Section Unguardedness.
Context `{C : Collaborators}.
Variables (p : Params) (space : Space).
Variable solve_raises : Mu -> option exn.
Variable bfgs_raises :
  Rom -> Space -> Mu -> SubParams -> (Mu -> float -> bool) -> option exn.

Lemma extend_when_solve_returns (s : TRSurrogate) (mu : Mu) :
  solve_raises mu = None -> Unguarded.extend solve_raises s mu = extend s mu.
Proof. unfold Unguarded.extend, extend. by intros ->. Qed.

Lemma extend_when_solve_raises (s : TRSurrogate) (mu : Mu) e :
  solve_raises mu = Some e -> Unguarded.extend solve_raises s mu = Exc e.
Proof. unfold Unguarded.extend. by intros ->. Qed.






Lemma unguarded_extend_raises (s : TRSurrogate) (mu : Mu) e :
  Unguarded.extend solve_raises s mu = Exc e ->
  solve_raises mu = Some e \/ is_TRError e = false.
Proof.
  destruct (solve_raises mu) as [e0|] eqn:Hs.
  - rewrite (extend_when_solve_raises _ _ _ Hs). intros [= <-]. by left.
  - rewrite (extend_when_solve_returns _ _ Hs). intros ?%extend_raises. by right.
Qed.





End Unguardedness.


(** ** From the initial state *)

Section FromStart.
Context `{C : Collaborators}.

Lemma TRSurrogate_init_spec (reductor0 : Reductor) (mu0 : Mu) (s : TRSurrogate) :
  TRSurrogate_init reductor0 mu0 = Ok s ->
  idle s /\ exists l r m, committed s l r m.
Proof.
  unfold TRSurrogate_init, py_assert.
  destruct (fom_compatible mu0); [|done]. simpl.
  unfold extend, extend_fallback, the_rom. simpl.
  rewrite lookup_singleton_eq.
  destruct (try_extend_and_reduce reductor0 (fom_solve mu0)) as [r' [m'|]]; [|done].
  simpl.
  destruct fom_has_output_functional; [|done]. simpl.
  destruct (fom_output_dim =? 1); [|done]. simpl.
  destruct (rom_has_output_functional m'); [|done]. simpl.
  destruct (rom_output_dim m' =? 1); [|done]. simpl.
  intros [= <-]. split; [done|].
  eexists _, r', m'. unfold committed; simpl. split_and!; [done| |done].
  apply lookup_insert_eq.
Qed.

Lemma initial_state_spec (reductor0 : Reductor) (mu0 : Mu) (radius0 : float) st0 :
  initial_state reductor0 mu0 radius0 = Ok st0 ->
  mu st0 = mu0 /\ radius st0 = radius0 /\
  idle (surrogate st0) /\ (exists l r m, committed (surrogate st0) l r m) /\
  data_mus st0 = [mu0] /\ data_subproblem_data st0 = [] /\
  update_norms st0 = [] /\ foc_norms st0 = [] /\
  mu_norm st0 = linalg_norm mu0 /\
  first_order_criticality st0 = infinity /\ iteration st0 = 0.
Proof.
  unfold initial_state.
  destruct (TRSurrogate_init reductor0 mu0) as [s|] eqn:Hs; [|done]. simpl.
  destruct (rom_output s mu0); [|done]. simpl. intros [= <-]. simpl.
  apply TRSurrogate_init_spec in Hs as [? ?]. by split_and!.
Qed.

(** Once a pass is complete, the norm kept in [mu_norm] is finite. *)
Lemma passes_finite p space st log st' :
  passes p space st log st' -> log <> [] -> isfinite (mu_norm st') = true.
Proof.
  induction 1 as [st|st rej sta log stb Hb Hrest IH]; [done|]. intros _.
  destruct log as [|rej' log].
  - inversion Hrest; subst. by apply loop_body_continue in Hb as (_ & _ & ?).
  - by apply IH.
Qed.

Lemma extend_pending_allocated (s s1 : TRSurrogate) l r m (mu : Mu) :
  committed s l r m -> extend s mu = Ok s1 ->
  exists l' r' m',
    new_reductor s1 = Some l' /\ objs s1 !! l' = Some r' /\ new_rom s1 = Some m'.
Proof.
  intros Hc. rewrite (extend_committed s l r m mu Hc). cbv zeta.
  destruct Hc as (_ & Hr & _).
  destruct (snd (try_extend_and_reduce r (fom_solve mu))) as [m'|];
    intros [= <-]; simpl; eexists _, _, _; (split_and!; [done| |done]).
  - apply lookup_insert_eq.
  - rewrite insert_fresh_keeps; [exact Hr | by eexists].
Qed.

Lemma pass_keeps_pair p space st rej st' :
  loop_body p space st = Ok (Continue rej st') ->
  (exists l r m, committed (surrogate st) l r m) ->
  exists l r m, committed (surrogate st') l r m.
Proof.
  intros (_ & H & _)%loop_body_continue (l & r & m & Hc). destruct rej.
  - apply propose_and_decide_rejected in H as (s1 & Hr & Hm & Hk & ->).
    destruct Hc as (Hl & Ho & Hrom). exists l, r, m. unfold committed; simpl.
    split_and!; [congruence | | congruence]. rewrite Hk; [done | by eexists].
  - apply propose_and_decide_accepted in H
        as (mu' & sub_data & s1 & radius' & cur & He & Ha & _).
    destruct (extend_pending_allocated _ _ _ _ _ _ Hc He)
      as (l' & r' & m' & Hnl & Ho & Hnm).
    rewrite (accept_spec s1 m' Hnm) in Ha. injection Ha as Ha.
    exists l', r', m'. rewrite <- Ha. by unfold committed.
Qed.

(** In every pass of a run, the surrogate has a committed pair and nothing
    pending, as [proposal] asks. *)
Lemma run_surrogate_ready p space reductor0 mu0 radius0 st0 log st :
  initial_state reductor0 mu0 radius0 = Ok st0 ->
  passes p space st0 log st ->
  idle (surrogate st) /\ exists l r m, committed (surrogate st) l r m.
Proof.
  intros (_ & _ & Hidle & Hc & _)%initial_state_spec Hpasses.
  induction Hpasses as [st|st rej sta log stb Hb _ IH]; [done|].
  apply IH.
  - apply loop_body_continue in Hb as (_ & Hpd & _).
    by apply propose_and_decide_idle in Hpd.
  - by eapply pass_keeps_pair.
Qed.

(** C9 (amended): the record that [trust_region] returns comes from a run of
    complete passes followed by a [break].  In every complete pass each of
    the four lists (['mus'], [update_norms], [foc_norms],
    ['subproblem_data']) keeps its entries and gets exactly one new last
    entry if the pass accepted, none if it rejected.  So in the returned
    record ['update_norms'], ['foc_norms'] and ['subproblem_data'] have one
    entry per accepted pass, while ['mus'] has one more: it starts with the
    initial parameter; ['iterations'] counts all passes. *)
Theorem iteration_record (reductor0 : Reductor) (parameter_space : option Space)
    (initial_guess : option Mu) (radius0 : float) (p : Params) (fuel : nat)
    (mu_final : Mu) (data : Data) :
  trust_region reductor0 parameter_space initial_guess radius0 p fuel
    = Some (Ok (mu_final, data)) ->
  let space := default fom_default_space parameter_space in
  let mu0 := default (sample_randomly space) initial_guess in
  exists st0 log st,
    initial_state reductor0 mu0 radius0 = Ok st0 /\
    passes p space st0 log st /\
    loop_body p space st = Ok (Break st) /\
    (forall sta rej stb,
       loop_body p space sta = Ok (Continue rej stb) -> record_step rej sta stb) /\
    mu_final = mu st /\
    d_iterations data = Z.of_nat (length log) /\
    (exists accepted,
       d_mus data = mu0 :: accepted /\ length accepted = accepted_count log) /\
    length (d_update_norms data) = accepted_count log /\
    length (d_foc_norms data) = accepted_count log /\
    length (d_subproblem_data data) = accepted_count log.
Proof.
  intros Hrun space mu0. unfold trust_region in Hrun. fold space mu0 in Hrun.
  destruct (py_assert _ _); [|done].
  destruct (initial_state reductor0 mu0 radius0) as [st0|] eqn:Hinit; [|done].
  destruct (trust_region_loop p space fuel st0) as [[st|]|] eqn:Hloop; [|done|done].
  injection Hrun as <- <-.
  apply loop_returns in Hloop as (log & Hpasses & Hbreak).
  exists st0, log, st.
  apply initial_state_spec in Hinit
      as (_ & _ & _ & _ & Hmus & Hsub & Hupd & Hfoc & _ & _ & Hit).
  pose proof (passes_iteration _ _ _ _ _ Hpasses) as Hcount.
  destruct (passes_record _ _ _ _ _ Hpasses)
    as ((l1 & E1 & L1) & (l2 & E2 & L2) & (l3 & E3 & L3) & (l4 & E4 & L4)).
  simpl. split_and!; try done.
  - intros sta rej stb. apply pass_record.
  - lia.
  - exists l1. by rewrite E1, Hmus.
  - by rewrite E2, Hupd.
  - by rewrite E3, Hfoc.
  - by rewrite E4, Hsub.
Qed.

(** C10: the test at the end of a pass reads [mu_norm], which a rejecting
    pass leaves as it was and an accepting pass sets to the norm of the
    accepted parameter.  So a pass that rejects its candidate and starts
    with a finite [mu_norm] does not raise there, whatever the candidate
    is; and in a run from the initial state the test raises only in a first
    pass that rejects when the norm of the initial guess is not finite, or
    in a pass that accepts a parameter whose norm is not finite. *)
Theorem guard_reads_cached_norm (p : Params) (space : Space) :
  (forall st st',
     propose_and_decide p space st = Ok (true, st') -> mu_norm st' = mu_norm st) /\
  (forall st st',
     propose_and_decide p space st = Ok (false, st') ->
     mu_norm st' = linalg_norm (mu st')) /\
  (forall st st',
     termination_check p st = Proceed ->
     propose_and_decide p space st = Ok (true, st') ->
     isfinite (mu_norm st) = true ->
     loop_body p space st = Ok (Continue true st')) /\
  (forall reductor0 mu0 radius0 st0 log st,
     initial_state reductor0 mu0 radius0 = Ok st0 ->
     passes p space st0 log st ->
     loop_body p space st = Exc (TRError not_finite_msg) ->
     (log = [] /\ isfinite (linalg_norm mu0) = false /\
      exists st', propose_and_decide p space st0 = Ok (true, st')) \/
     (exists st', propose_and_decide p space st = Ok (false, st') /\
                  isfinite (linalg_norm (mu st')) = false)).
Proof.
  assert (Hrej : forall st st',
    propose_and_decide p space st = Ok (true, st') -> mu_norm st' = mu_norm st).
  { intros st st' H.
    by apply propose_and_decide_rejected in H as (s1 & _ & _ & _ & ->). }
  assert (Hacc : forall st st',
    propose_and_decide p space st = Ok (false, st') ->
    mu_norm st' = linalg_norm (mu st')).
  { intros st st' H.
    by apply propose_and_decide_accepted in H as (? & ? & ? & ? & ? & _ & _ & ->). }
  split_and!; [done | done | |].
  - intros st st' Hcheck Hpd Hfin. apply loop_body_continue.
    split_and!; [done..|]. by rewrite (Hrej _ _ Hpd).
  - intros reductor0 mu0 radius0 st0 log st Hinit Hpasses Hraise.
    apply loop_body_TRError in Hraise
        as [[Hmsg _]|(_ & _ & rej & st' & Hpd & Hnf)];
      [by symmetry in Hmsg; apply messages_differ in Hmsg|].
    destruct rej.
    + left. rewrite (Hrej _ _ Hpd) in Hnf.
      destruct log as [|rej log].
      * inversion Hpasses; subst.
        apply initial_state_spec in Hinit
            as (_ & _ & _ & _ & _ & _ & _ & _ & Hnorm & _).
        rewrite Hnorm in Hnf. split_and!; [done..|]. by exists st'.
      * apply passes_finite in Hpasses; [congruence|done].
    + right. exists st'. split; [done|]. by rewrite <- (Hacc _ _ Hpd).
Qed.

End FromStart.

(** ** Termination *)

Section Termination.
Context `{C : Collaborators}.
Variables (p : Params) (space : Space).

Lemma check_converged st :
  miniter p <= iteration st ->
  (first_order_criticality st <? tol_criticality p)%float = true ->
  termination_check p st = Converged.
Proof.
  intros Hmin Hfoc. unfold termination_check.
  destruct (Z.leb_spec (miniter p) (iteration st)); [|lia]. by rewrite Hfoc.
Qed.

Lemma check_proceeds st :
  (first_order_criticality st <? tol_criticality p)%float = false ->
  iteration st < maxiter p ->
  termination_check p st = Proceed.
Proof.
  intros Hfoc Hmax. unfold termination_check. rewrite Hfoc.
  destruct (Z.leb_spec (maxiter p) (iteration st)); [lia|].
  by destruct (miniter p <=? iteration st).
Qed.

(** With the tolerance [0] and every norm not below [0], the criticality is
    never below the tolerance along a run from the initial values. *)
Lemma budget_prefix (N : nat) st0 :
  tol_criticality p = 0%float ->
  maxiter p = Z.of_nat N ->
  (forall v : Mu, (linalg_norm v <? 0)%float = false) ->
  iteration st0 = 0 ->
  first_order_criticality st0 = infinity ->
  (forall log st,
     passes p space st0 log st -> (length log < N)%nat ->
     exists rej st', propose_and_decide p space st = Ok (rej, st') /\
                     isfinite (mu_norm st') = true) ->
  forall k : nat, (k <= N)%nat ->
    exists log st,
      length log = k /\ passes p space st0 log st /\
      (first_order_criticality st <? 0)%float = false.
Proof.
  intros Htol Hmax Hnorm Hit Hfoc Hrun. induction k as [|k IH]; intros Hk.
  - exists [], st0. split_and!; [done|constructor|]. by rewrite Hfoc.
  - destruct IH as (log & st & Hlen & Hpasses & Hcrit); [lia|].
    destruct (Hrun log st Hpasses) as (rej & st' & Hpd & Hfin); [lia|].
    pose proof (passes_iteration _ _ _ _ _ Hpasses) as Hcount.
    assert (Hbody : loop_body p space st = Ok (Continue rej st')).
    { apply loop_body_continue. split_and!; [|done..].
      apply check_proceeds; [by rewrite Htol | lia]. }
    exists (log ++ [rej]), st'. split_and!.
    + rewrite length_app. simpl. lia.
    + by eapply passes_snoc.
    + destruct rej.
      * by apply propose_and_decide_rejected in Hpd as (s1 & _ & _ & _ & ->).
      * apply propose_and_decide_accepted in Hpd
          as (? & ? & ? & ? & ? & _ & _ & ->). simpl. apply Hnorm.
Qed.

(** C2: the termination check acts only once [iteration >= miniter]; there,
    a criticality below [tol_criticality] leaves the loop, and
    [trust_region] returns the parameter and the record of that moment;
    otherwise [iteration >= maxiter] raises the [TRError] of the iteration
    budget.  With [tol_criticality = 0],
    [maxiter = N >= miniter] and norms that are never below [0], a run from
    [iteration = 0] and an infinite criticality whose passes all complete
    makes exactly [N] passes, each with one call of the solver, and raises
    that error at the check of pass [N + 1]. *)
Theorem termination_check_and_budget :
  (forall st, iteration st < miniter p -> termination_check p st = Proceed) /\
  (forall st fuel,
     miniter p <= iteration st ->
     (first_order_criticality st <? tol_criticality p)%float = true ->
     loop_body p space st = Ok (Break st) /\
     trust_region_loop p space (S fuel) st = Some (Ok st)) /\
  (forall reductor0 mu0 radius0 st0 log st fuel,
     (shrink_factor p =? 0)%float = false ->
     initial_state reductor0 mu0 radius0 = Ok st0 ->
     passes p space st0 log st ->
     miniter p <= iteration st ->
     (first_order_criticality st <? tol_criticality p)%float = true ->
     (length log < fuel)%nat ->
     trust_region reductor0 (Some space) (Some mu0) radius0 p fuel =
       Some (Ok (mu st, mkData (data_subproblem_data st) (data_mus st)
                               (update_norms st) (foc_norms st) (iteration st)))) /\
  (forall st fuel,
     miniter p <= iteration st ->
     (first_order_criticality st <? tol_criticality p)%float = false ->
     maxiter p <= iteration st ->
     loop_body p space st = Exc (TRError max_iterations_msg) /\
     trust_region_loop p space (S fuel) st = Some (Exc (TRError max_iterations_msg))) /\
  (forall (N : nat) st0,
     tol_criticality p = 0%float ->
     maxiter p = Z.of_nat N ->
     miniter p <= Z.of_nat N ->
     (forall v : Mu, (linalg_norm v <? 0)%float = false) ->
     iteration st0 = 0 ->
     first_order_criticality st0 = infinity ->
     (forall log st,
        passes p space st0 log st -> (length log < N)%nat ->
        exists rej st', propose_and_decide p space st = Ok (rej, st') /\
                        isfinite (mu_norm st') = true) ->
     exists log st,
       length log = N /\ passes p space st0 log st /\
       iteration st = Z.of_nat N /\
       loop_body p space st = Exc (TRError max_iterations_msg) /\
       forall fuel, (N < fuel)%nat ->
         trust_region_loop p space fuel st0 = Some (Exc (TRError max_iterations_msg))).
Proof.
  split_and!.
  - intros st Hlt. unfold termination_check.
    by destruct (Z.leb_spec (miniter p) (iteration st)); [lia|].
  - intros st fuel Hmin Hfoc.
    assert (Hbody : loop_body p space st = Ok (Break st)).
    { apply loop_body_break. split; [|done]. by apply check_converged. }
    split; [done|]. simpl. by rewrite Hbody.
  - intros reductor0 mu0 radius0 st0 log st fuel Hshrink Hinit Hpasses Hmin Hfoc Hfuel.
    unfold trust_region, py_assert. rewrite Hshrink. simpl. rewrite Hinit.
    erewrite loop_breaks; [done | done | | done].
    apply loop_body_break. split; [|done]. by apply check_converged.
  - intros st fuel Hmin Hfoc Hmax.
    assert (Hbody : loop_body p space st = Exc (TRError max_iterations_msg)).
    { apply loop_body_TRError. left. split; [done|].
      by apply termination_check_exhausted. }
    split; [done|]. simpl. by rewrite Hbody.
  - intros N st0 Htol Hmax Hmin Hnorm Hit Hfoc Hrun.
    destruct (budget_prefix N st0 Htol Hmax Hnorm Hit Hfoc Hrun N)
      as (log & st & Hlen & Hpasses & Hcrit); [lia|].
    pose proof (passes_iteration _ _ _ _ _ Hpasses) as Hcount.
    assert (Hbody : loop_body p space st = Exc (TRError max_iterations_msg)).
    { apply loop_body_TRError. left. split; [done|].
      apply termination_check_exhausted. rewrite Htol. split_and!; [lia|lia|done]. }
    exists log, st. split_and!; [done|done|lia|done|].
    intros fuel Hfuel. eapply loop_raises; [done..|lia].
Qed.

End Termination.

(** ** The criterion of the line search *)

Section Criterion.
Context `{C : Collaborators}.

Lemma SFcompare_antisym (a b : SpecFloat.spec_float) :
  SpecFloat.SFcompare b a = option_map CompOpp (SpecFloat.SFcompare a b).
Proof.
  destruct a as [sa|sa| |sa ma ea], b as [sb|sb| |sb mb eb]; simpl;
    try reflexivity; try (by destruct sa); try (by destruct sb);
    try (by destruct sa, sb).
  destruct sa, sb; simpl; try reflexivity;
    rewrite (Z.compare_antisym ea eb); destruct (ea ?= eb)%Z; simpl;
    try reflexivity;
    by rewrite (Pos.compare_cont_antisym ma mb Eq), ?CompOpp_involutive.
Qed.

Lemma not_nan_spec (x : float) : is_nan x = false -> Prim2SF x <> SpecFloat.S754_nan.
Proof.
  unfold is_nan. rewrite FloatAxioms.eqb_spec. intros H Hnan.
  rewrite Hnan in H. discriminate.
Qed.

(** Away from NaN, [x < y] is the negation of [x >= y]. *)
Lemma ltb_negb_geb (x y : float) :
  is_nan x = false -> is_nan y = false -> (x <? y)%float = negb (y <=? x)%float.
Proof.
  intros Hx%not_nan_spec Hy%not_nan_spec.
  rewrite ltb_spec, leb_spec. unfold SpecFloat.SFltb, SpecFloat.SFleb.
  rewrite (SFcompare_antisym (Prim2SF x) (Prim2SF y)).
  destruct (SpecFloat.SFcompare (Prim2SF x) (Prim2SF y)) as [[| |]|] eqn:Hc;
    try reflexivity.
  destruct (Prim2SF x) as [| | |], (Prim2SF y) as [| | |]; simpl in Hc; congruence.
Qed.

(** C6 (amended): the callback returns [True] exactly for the candidates
    with [estimate_output_error(candidate) / |current_value| >= beta *
    radius]; a candidate passes when this comparison is false, which is the
    bound [... < beta * radius] whenever neither side is NaN. *)
Theorem criterion_flags_relative_error
    (r : Rom) (beta radius : float) (new_mu : Mu) (current_value : float) :
  let ratio := (rom_estimate_output_error r new_mu / abs current_value)%float in
  let bound := (beta * radius)%float in
  (error_aware_line_search_criterion r beta radius new_mu current_value = true <->
   (bound <=? ratio)%float = true) /\
  (is_nan ratio = false -> is_nan bound = false ->
   (error_aware_line_search_criterion r beta radius new_mu current_value = false <->
    (ratio <? bound)%float = true)).
Proof.
  intros ratio bound. unfold error_aware_line_search_criterion. fold ratio bound.
  split.
  - by destruct (bound <=? ratio)%float.
  - intros Hr Hb. rewrite (ltb_negb_geb ratio bound Hr Hb).
    by destruct (bound <=? ratio)%float.
Qed.

End Criterion.

(** ** The surrogate protocol *)

Section Protocol.
Context `{C : Collaborators}.

(** C5 (amended): [accept] fails with the assertion when no pair is pending;
    [extend] never looks at the pending pair: called while a pair is
    pending it does what it does on the surrogate without that pair, so the
    earlier pending pair is overwritten without a trace.  [trust_region]
    itself never does so: no pair is pending on entry of the loop, and every
    complete pass ends with no pair pending. *)
Theorem accept_needs_pending_and_extend_overwrites (s : TRSurrogate) :
  new_rom s = None ->
  accept s = Exc (AssertionError (Some no_new_rom)) /\
  (forall (s0 : TRSurrogate) (mu : Mu), extend s0 mu = extend (reject s0) mu) /\
  (forall reductor0 mu0 radius0 st0,
     initial_state reductor0 mu0 radius0 = Ok st0 -> idle (surrogate st0)) /\
  (forall p space st rej st',
     loop_body p space st = Ok (Continue rej st') -> idle (surrogate st')).
Proof.
  intros Hnone. split_and!.
  - unfold accept. by rewrite Hnone.
  - intros s0 mu. by destruct s0.
  - intros reductor0 mu0 radius0 st0 H.
    by apply initial_state_spec in H as (_ & _ & ? & _).
  - intros p space st rej st' (_ & H & _)%loop_body_continue.
    by apply propose_and_decide_idle in H.
Qed.

End Protocol.

(** * The quadratic instance at work *)

Section Examples.
Import Quadratic.
#[local] Existing Instance quadratic.
#[local] Set Warnings "-inexact-float".
Local Open Scope float_scope.

(** Closed goals of this instance are settled by evaluation. *)
Ltac evaluate := vm_compute; reflexivity.

Lemma start_started :
  initial_state ([] : list float) 4 8 = Ok (started 4) /\
  initial_state ([] : list float) 1 8 = Ok (started 1) /\
  initial_state ([] : list float) nan 8 = Ok (started nan).
Proof. split_and!; evaluate. Qed.

Lemma started_committed (mu0 : float) :
  committed (surrogate (started mu0)) 1 [mu0] [mu0].
Proof. split_and!; reflexivity. Qed.

Lemma started_idle (mu0 : float) : idle (surrogate (started mu0)).
Proof. split; reflexivity. Qed.

Lemma abs_not_negative (x : float) : (abs x <? 0) = false.
Proof.
  rewrite ltb_spec, abs_spec.
  destruct (Prim2SF x) as [s|s| |s m e]; reflexivity.
Qed.

(** The pass from [4] with the steps [1] and [2] is optimistic and grows the
    radius; the pass from [0.5] is pessimistic. *)
Lemma optimistic_and_pessimistic_example :
  (exists s1 st',
     extend (surrogate (started 4)) 1 = Ok s1 /\
     new_rom s1 = Some [4; 1] /\ new_reductor s1 = Some 2%nat /\
     accept s1 = Ok (surrogate st') /\
     rom (surrogate st') = Some [4; 1] /\
     propose_and_decide (params 30 1e-6 (1, 2)) box (started 4) = Ok (false, st') /\
     mu st' = 1 /\ radius st' = 16) /\
  (exists st',
     propose_and_decide (params 30 1e-6 (1, 2)) box (started 0.5) = Ok (true, st') /\
     surrogate st' = surrogate (started 0.5) /\
     mu st' = 0.5 /\ radius st' = 4).
Proof.
  split.
  - assert (Hp : proposal (params 30 1e-6 (1, 2)) box (started 4)
                   1 [4] [4] 1 [4; 3; 1] 3).
    { repeat split; evaluate. }
    destruct (optimistic_and_pessimistic_case _ _ _ _ _ _ _ _ _ Hp)
      as (_ & _ & Hopt & _).
    destruct Hopt as (s1 & st' & He & _ & _ & Hn & _ & Hnr & Ha & Hs & Hpd & Hmu & Hr);
      [evaluate|].
    exists s1, st'. split_and!; [done | | | done | | done | done |].
    + rewrite Hn. evaluate.
    + rewrite Hnr; [evaluate|]. intros [H|H]; vm_compute in H; discriminate.
    + rewrite Hs. evaluate.
    + rewrite Hr. evaluate.
  - assert (Hp : proposal (params 30 1e-6 (1, 2)) box (started 0.5)
                   1 [0.5] [0.5] (-2.5) [0.5; -0.5; -2.5] (-0.5)).
    { repeat split; evaluate. }
    destruct (optimistic_and_pessimistic_case _ _ _ _ _ _ _ _ _ Hp)
      as (_ & _ & _ & Hpess).
    destruct Hpess as (st' & Hpd & Hs & Hmu & Hr);
      [evaluate | evaluate |].
    exists st'. split_and!; [done..|]. rewrite Hr. evaluate.
Defined.

Lemma accepting_pass :
  loop_body (params 30 1e-6 (0.5, 0.5)) box (started 1)
    = Ok (Continue false (next_state (params 30 1e-6 (0.5, 0.5)) (started 1))).
Proof. evaluate. Qed.

(** Convergence after one accepted pass, and budget exhaustion with
    [maxiter = 2]: two passes, then the error. *)
Lemma termination_example :
  trust_region ([] : list float) (Some box) (Some 1) 8 (params 30 1e-6 (0.5, 0.5)) 2
    = Some (Ok (0, mkData [[1; 0.5; 0]] [1; 0] [1] [0] 1)) /\
  exists log st,
    length log = 2%nat /\
    passes (params 2 0 (0.5, 0.5)) box (started 1) log st /\
    iteration st = 2%Z /\
    loop_body (params 2 0 (0.5, 0.5)) box st = Exc (TRError max_iterations_msg) /\
    trust_region_loop (params 2 0 (0.5, 0.5)) box 3 (started 1)
      = Some (Exc (TRError max_iterations_msg)).
Proof.
  split.
  - destruct (termination_check_and_budget (params 30 1e-6 (0.5, 0.5)) box)
      as (_ & _ & Hreturns & _).
    etransitivity.
    + apply (Hreturns ([] : list float) 1 8 (started 1) [false]
               (next_state (params 30 1e-6 (0.5, 0.5)) (started 1)) 2%nat).
      * evaluate.
      * apply start_started.
      * eapply passes_cons; [exact accepting_pass | constructor].
      * vm_compute. discriminate.
      * evaluate.
      * simpl. lia.
    + evaluate.
  - destruct (termination_check_and_budget (params 2 0 (0.5, 0.5)) box)
      as (_ & _ & _ & _ & Hbudget).
    destruct (Hbudget 2%nat (started 1))
      as (log & st & Hlen & Hp & Hit & Hb & Hfuel).
    + reflexivity.
    + reflexivity.
    + simpl. lia.
    + exact abs_not_negative.
    + reflexivity.
    + reflexivity.
    + intros log st Hpasses Hlen.
      destruct log as [|r1 [|r2 log]]; [| |simpl in Hlen; lia].
      * inversion Hpasses; subst.
        eexists _, _. split; [evaluate|]. evaluate.
      * inversion Hpasses as [|? ? st1 ? ? Hb Hrest]; subst.
        inversion Hrest; subst. vm_compute in Hb. injection Hb as <- <-.
        eexists _, _. split; [evaluate|]. evaluate.
    + exists log, st. split_and!; [done..|]. apply Hfuel. lia.
Defined.



Lemma rejecting_pass :
  loop_body (params 30 1e-6 (1, 2)) box (started 1)
    = Ok (Continue true (next_state (params 30 1e-6 (1, 2)) (started 1))).
Proof. evaluate. Qed.

(** The pass from [1] with the steps [1] and [2] extends the surrogate at
    [-2] and rejects: the parameter and the committed pair are back. *)
Lemma rollback_example :
  let st' := next_state (params 30 1e-6 (1, 2)) (started 1) in
  mu st' = 1 /\ reductor (surrogate st') = Some 1%nat /\
  rom (surrogate st') = Some [1] /\ objs (surrogate st') !! 1%nat = Some [1] /\
  radius st' = 4 /\ iteration st' = 1%Z.
Proof.
  intros st'.
  pose proof (rejected_pass_rolls_back (params 30 1e-6 (1, 2)) box (started 1) st'
                (started_idle 1) rejecting_pass)
    as (Hmu & Hred & Hrom & Hk & _ & _ & Hrad & Hit & _).
  split_and!.
  - exact Hmu.
  - exact Hred.
  - exact Hrom.
  - rewrite Hk; [reflexivity|]. by eexists.
  - rewrite Hrad. evaluate.
  - exact Hit.
Defined.

(** [accept] on a surrogate with nothing pending. *)
Lemma accept_without_pending_example :
  accept (surrogate (started 4)) = Exc (AssertionError (Some no_new_rom)).
Proof.
  exact (proj1 (accept_needs_pending_and_extend_overwrites
                  (surrogate (started 4)) eq_refl)).
Defined.

(** C5, as stated, fails: two calls of [extend] in a row, at [3] and at [1],
    both return and both attempts succeed (so that no fallback is
    involved), and after the second one the pending pair of the first is
    not referred to by the surrogate any more. *)
Lemma second_extend_drops_first_pending :
  exists s1 s2,
    extend (surrogate (started 4)) 3 = Ok s1 /\
    new_reductor s1 = Some 2%nat /\ new_rom s1 = Some [4; 3] /\
    ~ extension_fails ([4] : list float) 1 /\
    extend s1 1 = Ok s2 /\
    new_reductor s2 = Some 3%nat /\ new_rom s2 = Some [4; 1] /\
    reductor s2 = Some 1%nat /\ rom s2 = Some [4].
Proof.
  eexists _, _. split; [evaluate|].
  split_and!; try reflexivity.
  intros [H|H]; vm_compute in H; discriminate.
Qed.

(** C6, as stated, fails: when the current value is NaN, so is the ratio; it
    is not below [beta * radius], and yet the callback does not flag the
    candidate.  The same happens for the ratio [0 / 0]. *)
Lemma criterion_passes_nan_ratio :
  (error_aware_line_search_criterion ([0] : list float) 0.95 0.1 0 nan = false /\
   (rom_estimate_output_error ([0] : list float) 0 / abs nan <? 0.95 * 0.1) = false) /\
  (error_aware_line_search_criterion ([0] : list float) 0.95 0.1 0 0 = false /\
   (rom_estimate_output_error ([0] : list float) 0 / abs 0 <? 0.95 * 0.1) = false).
Proof. split_and!; evaluate. Qed.

Lemma criterion_example :
  error_aware_line_search_criterion ([4] : list float) 0.95 8 3 17 = false.
Proof.
  destruct (criterion_flags_relative_error (C := quadratic) [4] 0.95 8 3 17)
    as [_ Hbelow].
  apply Hbelow; evaluate.
Defined.

Lemma proposal_from_0 :
  proposal (params 30 1e-6 (-0.5, -0.5)) box (started 0) 1 [0] [0] 1 [0; 0.5; 1] 0.5.
Proof. repeat split; evaluate. Qed.

(** The pass from [0] with the steps [-0.5] and [-0.5] is ambiguous and
    accepts; the pass from [1] with the steps [1] and [2] is ambiguous and
    rejects. *)
Lemma ambiguous_example :
  (exists st',
     propose_and_decide (params 30 1e-6 (-0.5, -0.5)) box (started 0)
       = Ok (false, st') /\
     mu st' = 1 /\ rom (surrogate st') = Some [0; 1] /\ radius st' = 8) /\
  (exists st',
     propose_and_decide (params 30 1e-6 (1, 2)) box (started 1) = Ok (true, st') /\
     mu st' = 1 /\ rom (surrogate st') = Some [1] /\ radius st' = 4).
Proof.
  split.
  - destruct (ambiguous_case _ _ _ _ _ _ _ _ _ proposal_from_0)
      as (s1 & He & Hn & Hacc & _);
      [split; reflexivity | evaluate | evaluate |].
    destruct Hacc as (st' & Ha & Hpd & Hmu & Hr); [evaluate|].
    exists st'. split_and!; [done | done | | rewrite Hr; evaluate].
    rewrite (accept_spec s1 _ Hn) in Ha. injection Ha as Ha. by rewrite <- Ha.
  - assert (Hp : proposal (params 30 1e-6 (1, 2)) box (started 1)
                   1 [1] [1] (-2) [1; 0; -2] 0).
    { repeat split; evaluate. }
    destruct (ambiguous_case _ _ _ _ _ _ _ _ _ Hp) as (s1 & He & Hn & _ & Hrej);
      [split; reflexivity | evaluate | evaluate |].
    destruct Hrej as (st' & Hpd & Hs & (_ & _ & Hrom) & _ & Hmu & Hr);
      [evaluate|].
    exists st'. split_and!; [done | done | done | rewrite Hr; evaluate].
Defined.

(** C7, as stated, fails: in the ambiguous pass from [0] the candidate [1]
    is accepted and the test with the drop to the pre-extension output holds
    ([0.75 * (1 - 3) <= 1 - 2]), yet the radius is not grown: the code tests
    the drop to the updated output ([0.75 * (1 - 2) <= 1 - 2] is false). *)
Lemma ambiguous_growth_uses_updated_output :
  let p := params 30 1e-6 (-0.5, -0.5) in
  let st := started 0 in
  let S := rom_output_at ([0] : list float) 1 in
  let err := rom_estimate_output_error ([0] : list float) 1 in
  let A := rom_output_at ([0] : list float) 0.5 in
  error_aware_bfgs ([0] : list float) box (mu st) (sub_params p)
    (error_aware_line_search_criterion ([0] : list float) (beta p) (radius st))
    = (1, [0; 0.5; 1]) /\
  (S + err <? A) = false /\ (A <? S - err) = false /\
  (radius_tol p * (old_rom_output st - S) <=? old_fom_output st - fom_output_at 1)
    = true /\
  exists st',
    propose_and_decide p box st = Ok (false, st') /\
    radius st' = radius st /\
    (radius st' =? radius st / shrink_factor p) = false.
Proof.
  cbv zeta. split_and!; try (evaluate).
  eexists. split; [evaluate|].
  split; evaluate.
Qed.

(** A failed extension on a surrogate with a committed pair. *)
Lemma fallback_example :
  exists s',
    extend (surrogate (started 4)) 4 = Ok s' /\
    new_reductor s' = Some 1%nat /\ new_rom s' = Some [4] /\
    reductor s' = Some 1%nat /\ rom s' = Some [4] /\
    objs s' !! 1%nat = Some [4].
Proof.
  destruct (extend_failure_falls_back (surrogate (started 4)) 1 [4] [4] 4)
    as (s' & He & Hnr & Hnm & (Hr & Ho & Hm) & _).
  - apply started_committed.
  - left. reflexivity.
  - exists s'. by split_and!.
Defined.

(** C8, as stated, fails inside the constructor: with a reductor that
    already holds the snapshot of the initial guess the extension fails,
    there is no committed model to fall back to, and the failure surfaces
    as an [AttributeError]. *)
Lemma first_extension_failure_is_raised :
  extension_fails ([4] : list float) 4 /\
  extend (mkSurrogate {[0%nat := [4]]} (Some 0%nat) None None None) 4
    = Exc (AttributeError "rom") /\
  TRSurrogate_init ([4] : list float) 4 = Exc (AttributeError "rom") /\
  trust_region ([4] : list float) (Some box) (Some 4) 8 (params 30 1e-6 (1, 2)) 1
    = Some (Exc (AttributeError "rom")).
Proof. split_and!; [by left | evaluate..]. Qed.

Lemma converging_run :
  trust_region ([] : list float) (Some box) (Some 1) 8 (params 30 1e-6 (0.5, 0.5)) 2
    = Some (Ok (0, mkData [[1; 0.5; 0]] [1; 0] [1] [0] 1)).
Proof. evaluate. Qed.

(** A run that converges after one accepted pass. *)
Lemma record_example :
  exists log : list bool,
    1%Z = Z.of_nat (length log) /\
    length [1; 0] = S (accepted_count log) /\
    length [[1; 0.5; 0]] = accepted_count log.
Proof.
  destruct (iteration_record _ _ _ _ _ _ _ _ converging_run)
    as (st0 & log & st & _ & _ & _ & _ & _ & Hit & (acc & Hmus & Hacc) & _ & _ & Hsub).
  exists log. simpl in Hit, Hmus, Hsub. injection Hmus as <-.
  split_and!; [done | by rewrite <- Hacc | done].
Defined.

(** C9, as stated, fails for ['mus']: the run above has one pass, which
    accepts, and returns two entries in ['mus']. *)
Lemma mus_has_one_more_entry :
  exists st,
    passes (params 30 1e-6 (0.5, 0.5)) box (started 1) [false] st /\
    loop_body (params 30 1e-6 (0.5, 0.5)) box st = Ok (Break st) /\
    trust_region ([] : list float) (Some box) (Some 1) 8 (params 30 1e-6 (0.5, 0.5)) 2
      = Some (Ok (mu st, mkData (data_subproblem_data st) (data_mus st)
                                (update_norms st) (foc_norms st) (iteration st))) /\
    accepted_count [false] = 1%nat /\
    length (data_mus st) = 2%nat.
Proof.
  exists (next_state (params 30 1e-6 (0.5, 0.5)) (started 1)).
  split_and!; try (evaluate).
  eapply passes_cons; [evaluate | constructor].
Qed.

(** A rejecting pass from a finite norm goes on; from the initial guess NaN
    the first pass rejects and the test raises. *)
Lemma guard_example :
  loop_body (params 30 1e-6 (1, 2)) box (started 0.5)
    = Ok (Continue true (next_state (params 30 1e-6 (1, 2)) (started 0.5))) /\
  (isfinite (linalg_norm nan) = false /\
   exists st', propose_and_decide (params 30 1e-6 (1, 2)) box (started nan)
                 = Ok (true, st')).
Proof.
  destruct (guard_reads_cached_norm (params 30 1e-6 (1, 2)) box)
    as (_ & _ & Hgoes & Hfires).
  split.
  - apply Hgoes; evaluate.
  - destruct (Hfires ([] : list float) nan 8 (started nan) [] (started nan))
      as [(_ & Hnf & Hrej)|(st' & Hpd & _)].
    + evaluate.
    + constructor.
    + evaluate.
    + by split.
    + vm_compute in Hpd. discriminate.
Defined.

End Examples.

(** * Further properties of [trust_region] *)

Section Budget.
Context `{C : Collaborators}.
Variables (p : Params) (space : Space).

Lemma pass_below_budget st rej st' :
  loop_body p space st = Ok (Continue rej st') ->
  iteration st < Z.max (miniter p) (maxiter p) /\ iteration st' = iteration st + 1.
Proof.
  intros Hb. split; [|by eapply pass_iteration].
  apply loop_body_continue in Hb as (Hcheck & _ & _).
  pose proof (termination_check_spec p st) as Hspec. rewrite Hcheck in Hspec. lia.
Qed.

Lemma passes_below_budget st log st' (M : Z) :
  passes p space st log st' ->
  Z.max (miniter p) (maxiter p) <= M -> iteration st <= M -> iteration st' <= M.
Proof.
  induction 1 as [st|st rej sta log stb Hb _ IH]; intros HM Hit; [done|].
  apply pass_below_budget in Hb as [? ?]. apply IH; lia.
Qed.

(** The loop leaves [while True] within the passes that the budget allows. *)
Lemma loop_ends (n : nat) : forall st,
  Z.max (miniter p) (maxiter p) - iteration st <= Z.of_nat n ->
  exists x, trust_region_loop p space (S n) st = Some x.
Proof.
  induction n as [|n IH]; intros st Hn; simpl;
    destruct (loop_body p space st) as [[stb|rej st1]|e] eqn:Hb;
    try (by eexists).
  - apply pass_below_budget in Hb as [? ?]. lia.
  - apply pass_below_budget in Hb as [? ?]. apply (IH st1). lia.
Qed.

Lemma infinity_not_below (x : float) : (infinity <? x)%float = false.
Proof.
  rewrite ltb_spec. change (Prim2SF infinity) with (SpecFloat.S754_infinity false).
  destruct (Prim2SF x) as [s|s| |s m e]; try reflexivity; by destruct s.
Qed.

Lemma pass_coherent (mu0 : Mu) st rej st' :
  loop_body p space st = Ok (Continue rej st') ->
  coherent space mu0 st -> coherent space mu0 st'.
Proof.
  intros (_ & H & _)%loop_body_continue (Hlast & Hnorm & Hfom & Hfoc).
  destruct rej.
  - apply propose_and_decide_rejected in H as (s1 & _ & _ & _ & ->).
    by unfold coherent.
  - apply propose_and_decide_accepted in H
        as (mu' & sub_data & s1 & radius' & cur & _ & _ & ->).
    unfold coherent; simpl. rewrite !last_snoc. split_and!; [done..|].
    right. by split.
Qed.

Lemma run_coherent reductor0 mu0 radius0 st0 log st :
  initial_state reductor0 mu0 radius0 = Ok st0 ->
  passes p space st0 log st ->
  coherent space mu0 st.
Proof.
  intros Hinit Hpasses.
  assert (H0 : coherent space mu0 st0).
  { unfold initial_state in Hinit.
    destruct (TRSurrogate_init reductor0 mu0) as [s|]; [|done]. simpl in Hinit.
    destruct (rom_output s mu0); [|done]. injection Hinit as <-.
    unfold coherent; simpl. split_and!; [done..|]. by left. }
  clear Hinit. induction Hpasses as [st|st rej sta log stb Hb _ IH]; [done|].
  apply IH. by eapply pass_coherent.
Qed.

End Budget.

Section Outcome.
Context `{C : Collaborators}.

(** X1: [trust_region] always ends: once the fuel exceeds the larger of
    [miniter] and [maxiter] the run has returned or raised, whatever the
    collaborators return; and no run from the initial state makes more than
    that many passes. *)
Theorem trust_region_ends (reductor0 : Reductor) (parameter_space : option Space)
    (initial_guess : option Mu) (radius0 : float) (p : Params) (fuel : nat) :
  (Z.to_nat (Z.max (miniter p) (maxiter p)) < fuel)%nat ->
  (exists x,
     trust_region reductor0 parameter_space initial_guess radius0 p fuel = Some x) /\
  (forall space mu0 st0 log st,
     initial_state reductor0 mu0 radius0 = Ok st0 ->
     passes p space st0 log st ->
     Z.of_nat (length log) <= iteration_budget p).
Proof.
  intros Hfuel. split.
  - unfold trust_region. destruct (py_assert _ _); [|by eexists].
    destruct (initial_state _ _ _) as [st0|] eqn:Hinit; [|by eexists].
    apply initial_state_spec in Hinit
        as (_ & _ & _ & _ & _ & _ & _ & _ & _ & _ & Hit).
    destruct fuel as [|n]; [lia|].
    destruct (loop_ends p (default fom_default_space parameter_space) n st0)
      as [[st|e] ->]; [lia|by eexists..].
  - intros space mu0 st0 log st Hinit Hpasses.
    apply initial_state_spec in Hinit
        as (_ & _ & _ & _ & _ & _ & _ & _ & _ & _ & Hit).
    pose proof (passes_iteration _ _ _ _ _ Hpasses) as Hcount.
    pose proof (passes_below_budget p space _ _ _ (iteration_budget p) Hpasses).
    unfold iteration_budget in *. lia.
Qed.

(** X2: when [trust_region] returns, the first-order criticality of the
    returned parameter is below [tol_criticality]: it is the last entry of
    ['foc_norms'], and the returned parameter is the last entry of ['mus'];
    at least one pass has accepted its candidate, and ['iterations'] is at
    least [1] and [miniter] and at most the larger of [miniter] and
    [maxiter]. *)
Theorem returned_parameter_is_critical (reductor0 : Reductor)
    (parameter_space : option Space) (initial_guess : option Mu) (radius0 : float)
    (p : Params) (fuel : nat) (mu_final : Mu) (data : Data) :
  trust_region reductor0 parameter_space initial_guess radius0 p fuel
    = Some (Ok (mu_final, data)) ->
  let space := default fom_default_space parameter_space in
  (criticality_at space mu_final <? tol_criticality p)%float = true /\
  last (d_foc_norms data) = Some (criticality_at space mu_final) /\
  last (d_mus data) = Some mu_final /\
  (1 <= length (d_subproblem_data data))%nat /\
  1 <= d_iterations data /\
  miniter p <= d_iterations data /\
  d_iterations data <= Z.max (miniter p) (maxiter p).
Proof.
  intros Hrun space. unfold trust_region in Hrun. fold space in Hrun.
  destruct (py_assert _ _); [|done].
  destruct (initial_state _ _ _) as [st0|] eqn:Hinit; [|done].
  destruct (trust_region_loop p space fuel st0) as [[st|]|] eqn:Hloop; [|done|done].
  injection Hrun as <- <-. simpl.
  apply loop_returns in Hloop as (log & Hpasses & Hbreak).
  apply loop_body_break in Hbreak as [Hcheck _].
  pose proof (termination_check_spec p st) as Hspec. rewrite Hcheck in Hspec.
  destruct Hspec as [Hmin Hbelow].
  destruct (run_coherent p space _ _ _ _ _ _ Hinit Hpasses)
    as (Hlast & _ & _ & [[_ Hinf]|[Hfoc Hcrit]]).
  { rewrite Hinf, infinity_not_below in Hbelow. done. }
  pose proof (passes_iteration _ _ _ _ _ Hpasses) as Hcount.
  destruct (passes_record _ _ _ _ _ Hpasses)
    as (_ & _ & (l3 & E3 & L3) & (l4 & E4 & L4)).
  apply initial_state_spec in Hinit
      as (_ & _ & _ & _ & _ & Hsub & _ & Hfn & _ & _ & Hit).
  assert (Hacc : (1 <= accepted_count log)%nat).
  { rewrite <- L3. rewrite E3, Hfn in Hfoc. destruct l3; [done|simpl; lia]. }
  assert (Hlen : (accepted_count log <= length log)%nat).
  { unfold accepted_count. apply List.filter_length_le. }
  pose proof (passes_below_budget p space _ _ _
                (Z.max 1 (Z.max (miniter p) (maxiter p))) Hpasses).
  rewrite <- Hcrit. split_and!; [done | done | done | | lia | done |].
  - rewrite E4, Hsub. simpl. lia.
  - destruct log as [|rej log]; [simpl in Hlen; lia|].
    inversion Hpasses as [|? ? st1 ? ? Hb Hrest]; subst.
    apply pass_below_budget in Hb as [? Hone].
    pose proof (passes_below_budget p space _ _ _
                  (Z.max (miniter p) (maxiter p)) Hrest). lia.
Qed.

(** X3: when the budget error is raised in a run from the initial state,
    exactly [max(0, miniter, maxiter)] passes have been made: a [miniter]
    above [maxiter] postpones the error. *)
Theorem budget_error_after_all_passes (p : Params) (space : Space)
    (reductor0 : Reductor) (mu0 : Mu) (radius0 : float) st0 log st :
  initial_state reductor0 mu0 radius0 = Ok st0 ->
  passes p space st0 log st ->
  loop_body p space st = Exc (TRError max_iterations_msg) ->
  iteration st = iteration_budget p /\ Z.of_nat (length log) = iteration_budget p.
Proof.
  intros Hinit Hpasses Hraise.
  apply initial_state_spec in Hinit
      as (_ & _ & _ & _ & _ & _ & _ & _ & _ & _ & Hit).
  pose proof (passes_iteration _ _ _ _ _ Hpasses) as Hcount.
  pose proof (passes_below_budget p space _ _ _ (iteration_budget p) Hpasses).
  apply loop_body_TRError in Hraise as [[_ Hex]|(Hmsg & _)];
    [|by apply messages_differ in Hmsg].
  apply termination_check_exhausted in Hex as (? & ? & _).
  unfold iteration_budget in *. lia.
Qed.

End Outcome.

Section Isolation.
Context `{C : Collaborators}.

Lemma fresh_after_first (r0 : Reductor) :
  fresh (dom ({[0%nat := r0]} : gmap nat Reductor)) = 1%nat.
Proof. rewrite dom_singleton_L. reflexivity. Qed.

(** What the constructor leaves, when it returns. *)
Lemma constructor_state (reductor0 : Reductor) (mu0 : Mu) (s : TRSurrogate) :
  TRSurrogate_init reductor0 mu0 = Ok s ->
  exists m,
    snd (try_extend_and_reduce reductor0 (fom_solve mu0)) = Some m /\
    s = mkSurrogate
          (<[1%nat := fst (try_extend_and_reduce reductor0 (fom_solve mu0))]>
             {[0%nat := reductor0]})
          (Some 1%nat) (Some m) None None.
Proof.
  unfold TRSurrogate_init, py_assert.
  destruct (fom_compatible mu0); [|done]. simpl.
  unfold extend, extend_fallback, the_rom. simpl.
  rewrite lookup_singleton_eq, fresh_after_first.
  destruct (try_extend_and_reduce reductor0 (fom_solve mu0)) as [r' [m'|]]; [|done].
  simpl.
  destruct fom_has_output_functional; [|done]. simpl.
  destruct (fom_output_dim =? 1); [|done]. simpl.
  destruct (rom_has_output_functional m'); [|done]. simpl.
  destruct (rom_output_dim m' =? 1); [|done]. simpl.
  intros [= <-]. by exists m'.
Qed.

Lemma keeps_objects_trans (s1 s2 s3 : TRSurrogate) :
  keeps_objects s1 s2 -> keeps_objects s2 s3 -> keeps_objects s1 s3.
Proof.
  intros H12 H23 k Hk. rewrite H23, H12; [done..|]. by rewrite H12.
Qed.

Lemma pass_keeps_objects p space st rej st' :
  loop_body p space st = Ok (Continue rej st') ->
  keeps_objects (surrogate st) (surrogate st').
Proof.
  intros (_ & H & _)%loop_body_continue. destruct rej.
  - by apply propose_and_decide_rejected in H as (s1 & _ & _ & ? & ->).
  - apply propose_and_decide_accepted in H
        as (mu' & sub_data & s1 & radius' & cur & He & Ha & _).
    apply extend_keeps in He as (_ & _ & Hk).
    unfold accept in Ha. destruct (new_rom s1); [|done].
    injection Ha as Ha. by rewrite <- Ha.
Qed.

(** The committed reductor is never the object with identity [0]. *)
Lemma pass_keeps_copy p space st rej st' :
  loop_body p space st = Ok (Continue rej st') ->
  is_Some (objs (surrogate st) !! 0%nat) ->
  (exists l r m, committed (surrogate st) l r m /\ l <> 0%nat) ->
  exists l r m, committed (surrogate st') l r m /\ l <> 0%nat.
Proof.
  intros (_ & H & _)%loop_body_continue Hzero (l & r & m & Hc & Hl). destruct rej.
  - apply propose_and_decide_rejected in H as (s1 & Hr & Hm & Hk & ->).
    destruct Hc as (Hred & Ho & Hrom). exists l, r, m. unfold committed; simpl.
    split; [|done]. split_and!; [congruence | | congruence].
    rewrite Hk; [done | by eexists].
  - apply propose_and_decide_accepted in H
        as (mu' & sub_data & s1 & radius' & cur & He & Ha & _).
    rewrite (extend_committed _ l r m mu' Hc) in He. cbv zeta in He.
    assert (Hfresh : fresh (dom (objs (surrogate st))) <> 0%nat).
    { intros Heq. pose proof (fresh_not_allocated (objs (surrogate st))) as Hn.
      rewrite Heq in Hn. rewrite Hn in Hzero. by destruct Hzero. }
    destruct Hc as (Hred & Ho & Hrom).
    destruct (snd (try_extend_and_reduce r (fom_solve mu'))) as [m'|];
      injection He as <-; simpl in Ha; injection Ha as Ha; rewrite <- Ha;
      eexists _, _, _; unfold committed; simpl.
    + split; [|exact Hfresh]. split_and!; [done| |done]. apply lookup_insert_eq.
    + split; [|exact Hl]. split_and!; [done| |done].
      rewrite insert_fresh_keeps; [exact Ho | by eexists].
Qed.

(** X4: [trust_region] never changes the reductor object that it is given:
    the constructor works on a copy, every extension on a copy of the
    committed copy, and no object of the store is changed once a pass is
    over. *)
Theorem given_reductor_is_never_changed (p : Params) (space : Space)
    (reductor0 : Reductor) (mu0 : Mu) (radius0 : float) st0 log st :
  initial_state reductor0 mu0 radius0 = Ok st0 ->
  passes p space st0 log st ->
  objs (surrogate st) !! 0%nat = Some reductor0 /\
  reductor (surrogate st) <> Some 0%nat /\
  keeps_objects (surrogate st0) (surrogate st).
Proof.
  intros Hinit Hpasses.
  assert (H0 : objs (surrogate st0) !! 0%nat = Some reductor0 /\
               exists l r m, committed (surrogate st0) l r m /\ l <> 0%nat).
  { unfold initial_state in Hinit.
    destruct (TRSurrogate_init reductor0 mu0) as [s|] eqn:Hs; [|done].
    simpl in Hinit. destruct (rom_output s mu0); [|done]. injection Hinit as <-.
    apply constructor_state in Hs as (m & Htry & ->). simpl. split.
    - rewrite lookup_insert_ne by done. apply lookup_singleton_eq.
    - eexists 1%nat, _, m. split; [|done]. unfold committed; simpl.
      split_and!; [done| |done]. apply lookup_insert_eq. }
  clear Hinit.
  assert (Hall : keeps_objects (surrogate st0) (surrogate st) /\
                 exists l r m, committed (surrogate st) l r m /\ l <> 0%nat).
  { destruct H0 as [Hz Hc].
    induction Hpasses as [st|st rej sta log stb Hb _ IH]; [by split|].
    pose proof (pass_keeps_objects _ _ _ _ _ Hb) as Hk.
    destruct IH as [Hk' Hc'].
    - rewrite Hk; [done | by eexists].
    - eapply pass_keeps_copy; [done | by eexists | done].
    - split; [by eapply keeps_objects_trans | done]. }
  destruct H0 as [Hz _]. destruct Hall as (Hk & l & r & m & (Hred & _) & Hl).
  split_and!; [|congruence|done].
  rewrite Hk; [done | by eexists].
Qed.

(** X5: the constructor returns exactly when the initial guess is compatible
    with the parameters of the full model, the first extension and reduction
    succeed, and the outputs of the full and of the reduced model are
    scalar; the surrogate then holds a copy of the given reductor, extended,
    with nothing pending.  When the first extension fails for a compatible
    initial guess, the constructor raises [AttributeError]. *)
Theorem constructor_succeeds_iff (reductor0 : Reductor) (mu0 : Mu) :
  (forall s : TRSurrogate,
     TRSurrogate_init reductor0 mu0 = Ok s <->
     fom_compatible mu0 = true /\
     fom_has_output_functional = true /\ fom_output_dim = 1 /\
     exists m,
       snd (try_extend_and_reduce reductor0 (fom_solve mu0)) = Some m /\
       scalar_output m /\
       s = mkSurrogate
             (<[1%nat := fst (try_extend_and_reduce reductor0 (fom_solve mu0))]>
                {[0%nat := reductor0]})
             (Some 1%nat) (Some m) None None) /\
  (fom_compatible mu0 = true -> extension_fails reductor0 mu0 ->
   TRSurrogate_init reductor0 mu0 = Exc (AttributeError "rom")).
Proof.
  split.
  - intros s. unfold TRSurrogate_init, py_assert, scalar_output.
    destruct (fom_compatible mu0); simpl; [|split; [done|by intros [? _]]].
    unfold extend, extend_fallback, the_rom. simpl.
    rewrite lookup_singleton_eq, fresh_after_first.
    destruct (try_extend_and_reduce reductor0 (fom_solve mu0)) as [r' [m'|]]; simpl;
      [|split; [done|by intros (_ & _ & _ & ? & ? & _)]].
    destruct fom_has_output_functional; simpl;
      [|split; [done|by intros (_ & ? & _)]].
    destruct (Z.eqb_spec fom_output_dim 1); simpl;
      [|split; [done|by intros (_ & _ & ? & _)]].
    destruct (rom_has_output_functional m') eqn:Hf; simpl;
      [|split; [done|intros (_ & _ & _ & ? & [= <-] & [? _] & _); congruence]].
    destruct (Z.eqb_spec (rom_output_dim m') 1); simpl;
      [|split; [done|intros (_ & _ & _ & ? & [= <-] & [_ ?] & _); congruence]].
    split.
    + intros [= <-]. split_and!; [done..|]. by exists m'.
    + by intros (_ & _ & _ & ? & [= <-] & _ & ->).
  - intros Hcomp Hfail%try_fails_iff. unfold TRSurrogate_init, py_assert.
    rewrite Hcomp. simpl. unfold extend, extend_fallback, the_rom. simpl.
    rewrite lookup_singleton_eq.
    destruct (try_extend_and_reduce reductor0 (fom_solve mu0)) as [r' o].
    simpl in Hfail. by rewrite Hfail.
Qed.

End Isolation.

Section Coherence.
Context `{C : Collaborators}.
Variables (p : Params) (space : Space).

(** X6: the full-model output that the growth test starts from is the one
    of the initial guess during the whole run: [old_fom_output] is computed
    before the loop and no pass assigns it, accepting or not. *)
Theorem full_output_reference_is_initial
    (reductor0 : Reductor) (mu0 : Mu) (radius0 : float) st0 log st :
  initial_state reductor0 mu0 radius0 = Ok st0 ->
  passes p space st0 log st ->
  old_fom_output st = fom_output_at mu0 /\
  forall rej st',
    loop_body p space st = Ok (Continue rej st') ->
    old_fom_output st' = fom_output_at mu0.
Proof.
  intros Hinit Hpasses.
  pose proof (run_coherent p space _ _ _ _ _ _ Hinit Hpasses) as Hc.
  split; [apply Hc|]. intros rej st' Hb.
  by apply (pass_coherent p space mu0) in Hb as (_ & _ & ? & _).
Qed.

(** X7: between two passes of a run, the working parameter is the last
    entry of [data['mus']], [mu_norm] is its norm, and
    [first_order_criticality] is the last entry of [foc_norms], or infinity
    as long as no pass has accepted. *)
Theorem locals_stay_coherent
    (reductor0 : Reductor) (mu0 : Mu) (radius0 : float) st0 log st :
  initial_state reductor0 mu0 radius0 = Ok st0 ->
  passes p space st0 log st ->
  last (data_mus st) = Some (mu st) /\
  mu_norm st = linalg_norm (mu st) /\
  first_order_criticality st = default infinity (last (foc_norms st)) /\
  (accepted_count log = 0%nat -> mu st = mu0 /\ foc_norms st = []).
Proof.
  intros Hinit Hpasses.
  destruct (run_coherent p space _ _ _ _ _ _ Hinit Hpasses)
    as (Hlast & Hnorm & _ & Hfoc).
  split_and!; [done | done | |].
  - destruct Hfoc as [[-> ->]|[-> _]]; done.
  - intros Hnone.
    destruct (passes_record _ _ _ _ _ Hpasses)
      as ((l1 & E1 & L1) & _ & (l3 & E3 & L3) & _).
    apply initial_state_spec in Hinit
        as (_ & _ & _ & _ & Hmus & _ & _ & Hfn & _).
    rewrite Hnone in L1, L3. destruct l1, l3; try done.
    rewrite E1, Hmus in Hlast. rewrite E3, Hfn. simpl in Hlast.
    split; [congruence | done].
Qed.


Lemma accepting_branch st (s1 : TRSurrogate) (m' : Rom) (mu' : Mu)
    (sub_data : SubData) (radius' cur : float) :
  new_rom s1 = Some m' ->
  handle_rejection space st (mu st) mu' sub_data (mkChecked false s1 radius' cur) =
  Ok (mkState mu' radius'
        (mkSurrogate (objs s1) (new_reductor s1) (Some m') None None)
        (data_subproblem_data st ++ [sub_data]) (data_mus st ++ [mu'])
        (linalg_norm mu') (update_norms st ++ [linalg_norm (vsub mu' (mu st))])
        (foc_norms st ++ [criticality_at space mu'])
        cur (old_fom_output st) (criticality_at space mu') (iteration st + 1)).
Proof. intros Hn. unfold handle_rejection; simpl. by rewrite (accept_spec s1 m' Hn). Qed.


(** X9: in the ambiguous case, when the extension fails, the "updated"
    output is the output of the committed reduced model again: the candidate
    is accepted exactly when [S <= A], and either way the committed pair is
    the one from before the pass. *)
Theorem ambiguous_case_after_failed_extension st l r m mu' sub_data a :
  proposal p space st l r m mu' sub_data a ->
  let S := rom_output_at m mu' in
  let err := rom_estimate_output_error m mu' in
  let A := rom_output_at m a in
  scalar_output m ->
  extension_fails r mu' ->
  (S + err <? A)%float = false ->
  (A <? S - err)%float = false ->
  exists st',
    propose_and_decide p space st = Ok (negb (S <=? A)%float, st') /\
    committed (surrogate st') l r m /\ idle (surrogate st') /\
    old_fom_output st' = old_fom_output st /\
    if (S <=? A)%float
    then mu st' = mu' /\ old_rom_output st' = S
    else mu st' = mu st /\ old_rom_output st' = old_rom_output st.
Proof.
  intros Hp S err A Hscalar Hfail H1 H2.
  destruct (checks_under_proposal _ _ _ _ _ _ _ _ _ Hp)
    as (s1 & He & Hc1 & _ & Hn & Hal & Hchk).
  rewrite (pending_rom_failed r m mu' Hfail) in Hn. specialize (Hal Hfail).
  rewrite (propose_under_proposal _ _ _ _ _ _ _ _ _ Hp), Hchk. cbv zeta.
  fold S err A. rewrite H1, H2.
  rewrite (new_rom_output_scalar s1 m mu' Hn Hscalar). fold S. simpl.
  destruct Hc1 as (Hred & Ho & Hrom).
  destruct (S <=? A)%float; simpl.
  - rewrite (accepting_branch _ _ _ _ _ _ _ Hn). simpl.
    eexists. split; [reflexivity|]. unfold committed; simpl. by rewrite Hal.
  - eexists. split; [reflexivity|]. unfold committed; simpl. done.
Qed.

End Coherence.

Section Protocol2.
Context `{C : Collaborators}.

(** X10: on a surrogate with a committed pair, [extend] followed by
    [reject] gives back the committed pair with nothing pending and every
    object of the store as it was, and rejecting again changes nothing;
    [extend] followed by [accept] commits the pending reduced model, after
    which nothing is pending: a second [accept] and [new_rom_output] fail
    with the assertion. *)
Theorem extend_then_reject_or_accept (s : TRSurrogate) l r m (mu : Mu) :
  committed s l r m ->
  exists s1,
    extend s mu = Ok s1 /\
    (committed (reject s1) l r m /\ idle (reject s1) /\
     keeps_objects s (reject s1) /\ reject (reject s1) = reject s1 /\
     new_rom_output (reject s1) mu = Exc (AssertionError (Some no_new_rom))) /\
    exists s2,
      accept s1 = Ok s2 /\
      rom s2 = Some (pending_rom r m mu) /\ reductor s2 = new_reductor s1 /\
      idle s2 /\ keeps_objects s s2 /\
      accept s2 = Exc (AssertionError (Some no_new_rom)) /\
      new_rom_output s2 mu = Exc (AssertionError (Some no_new_rom)).
Proof.
  intros Hc.
  destruct (extend_spec s l r m mu Hc) as (s1 & He & Hc1 & Hk & Hn & _).
  exists s1. split; [done|]. split.
  - destruct Hc1 as (? & ? & ?). by split_and!.
  - rewrite (accept_spec s1 _ Hn). eexists. split; [reflexivity|].
    by split_and!.
Qed.

(** X11: [rb_size] reads the committed reductor: it returns on every
    surrogate with a committed pair, [extend] and [reject] do not change its
    value, and after [accept] it is the size of the extended copy, or the
    old size when the extension had failed. *)
Theorem rb_size_follows_committed (s : TRSurrogate) l r m (mu : Mu) :
  committed s l r m ->
  rb_size s = Ok (rb_length r) /\
  exists s1 s2,
    extend s mu = Ok s1 /\ accept s1 = Ok s2 /\
    rb_size s1 = Ok (rb_length r) /\
    rb_size (reject s1) = Ok (rb_length r) /\
    (extension_fails r mu -> rb_size s2 = Ok (rb_length r)) /\
    (~ extension_fails r mu ->
     rb_size s2 =
       Ok (rb_length (fst (try_extend_and_reduce r (fom_solve mu))))).
Proof.
  intros Hc. pose proof Hc as (Hred & Ho & Hrom).
  split; [unfold rb_size; by rewrite Hred, Ho|].
  rewrite (extend_committed s l r m mu Hc). cbv zeta.
  setoid_rewrite <- try_fails_iff.
  destruct (snd (try_extend_and_reduce r (fom_solve mu))) as [m'|];
    eexists _, _; (split; [reflexivity|]); (split; [reflexivity|]);
    unfold rb_size, reject; simpl;
    rewrite ?insert_fresh_keeps, ?Ho, ?lookup_insert_eq by (by eexists);
    by split_and!.
Qed.

End Protocol2.

Section UnguardedPass.
Context `{C : Collaborators}.
Variables (p : Params) (space : Space).
Variable solve_raises : Mu -> option exn.
Variable bfgs_raises :
  Rom -> Space -> Mu -> SubParams -> (Mu -> float -> bool) -> option exn.


End UnguardedPass.

(** * The further properties on the quadratic instance *)

Section MoreExamples.
Import Quadratic.
#[local] Existing Instance quadratic.
#[local] Set Warnings "-inexact-float".
Local Open Scope float_scope.

Ltac evaluate := vm_compute; reflexivity.

(** A run with [maxiter = 2] has ended when the fuel is [3]. *)
Lemma trust_region_ends_example :
  exists x,
    trust_region ([] : list float) (Some box) (Some 1) 8 (params 2 0 (0.5, 0.5)) 3
      = Some x.
Proof.
  apply (trust_region_ends (C := quadratic) ([] : list float) (Some box) (Some 1) 8
           (params 2 0 (0.5, 0.5)) 3).
  simpl. lia.
Defined.

(** The run that converges at [0] returns a parameter of criticality [0]. *)
Lemma returned_parameter_example :
  (criticality_at box 0 <? 1e-6) = true /\
  last [1; 0] = Some 0.
Proof.
  destruct (returned_parameter_is_critical _ _ _ _ _ _ _ _ converging_run)
    as (Hcrit & _ & Hlast & _).
  split; [exact Hcrit | exact Hlast].
Defined.

(** With [miniter = 2] and [maxiter = 1] the budget error comes after two
    passes. *)
Lemma postponed_budget_error_example :
  let p := mkParams 0.95 0.5 2 1 0 0.75 (0.5, 0.5) in
  loop_body p box (next_state p (next_state p (started 1)))
    = Exc (TRError max_iterations_msg) /\
  iteration (next_state p (next_state p (started 1))) = 2%Z.
Proof.
  intros p.
  assert (Hraise : loop_body p box (next_state p (next_state p (started 1)))
                   = Exc (TRError max_iterations_msg)) by evaluate.
  split; [exact Hraise|].
  refine (proj1 (budget_error_after_all_passes (C := quadratic) p box ([] : list float) 1 8
                   (started 1) [false; false] _ _ _ Hraise)).
  - apply start_started.
  - eapply passes_cons; [evaluate|]. eapply passes_cons; [evaluate|]. constructor.
Defined.

Lemma one_accepted_pass :
  passes (params 30 1e-6 (0.5, 0.5)) box (started 1) [false]
    (next_state (params 30 1e-6 (0.5, 0.5)) (started 1)).
Proof. eapply passes_cons; [exact accepting_pass | constructor]. Qed.

Lemma started_1 : initial_state ([] : list float) 1 8 = Ok (started 1).
Proof. apply start_started. Qed.

(** After an accepted pass the given (empty) reductor is still in place. *)
Lemma given_reductor_example :
  objs (surrogate (next_state (params 30 1e-6 (0.5, 0.5)) (started 1))) !! 0%nat
    = Some [] /\
  reductor (surrogate (next_state (params 30 1e-6 (0.5, 0.5)) (started 1)))
    <> Some 0%nat.
Proof.
  destruct (given_reductor_is_never_changed _ _ _ _ _ _ _ _ started_1 one_accepted_pass)
    as (H0 & Hne & _).
  split; [exact H0 | exact Hne].
Defined.

(** After the accepted pass from [1] to [0], the reference output is still
    [J 1]. *)
Lemma full_output_reference_example :
  old_fom_output (next_state (params 30 1e-6 (0.5, 0.5)) (started 1)) = J 1.
Proof.
  exact (proj1 (full_output_reference_is_initial _ _ _ _ _ _ _ _
                  started_1 one_accepted_pass)).
Defined.

(** After the accepted pass from [1], the locals agree with the record. *)
Lemma locals_example :
  let st := next_state (params 30 1e-6 (0.5, 0.5)) (started 1) in
  last (data_mus st) = Some (mu st) /\ mu_norm st = abs (mu st).
Proof.
  intros st.
  destruct (locals_stay_coherent _ _ _ _ _ _ _ _ started_1 one_accepted_pass)
    as (Hlast & Hnorm & _).
  split; [exact Hlast | exact Hnorm].
Defined.


(** The pass from [1] with the steps [1] and [-1] proposes [1] again: the
    extension fails, the case is ambiguous, and the candidate is accepted on
    the committed outputs. *)
Lemma ambiguous_failed_extension_example :
  exists st',
    propose_and_decide (params 30 1e-6 (1, -1)) box (started 1) = Ok (false, st') /\
    committed (surrogate st') 1 [1] [1].
Proof.
  assert (Hp : proposal (params 30 1e-6 (1, -1)) box (started 1)
                 1 [1] [1] 1 [1; 0; 1] 0).
  { repeat split; evaluate. }
  destruct (ambiguous_case_after_failed_extension _ _ _ _ _ _ _ _ _ Hp)
    as (st' & Hpd & Hc & _).
  - split; reflexivity.
  - left. reflexivity.
  - evaluate.
  - evaluate.
  - exists st'. split; [exact Hpd | exact Hc].
Defined.

(** The constructor on the empty reductor, and on a reductor that already
    holds the snapshot of the initial guess. *)
Lemma constructor_example :
  TRSurrogate_init ([] : list float) 1 = Ok (surrogate (started 1)) /\
  TRSurrogate_init ([4] : list float) 4 = Exc (AttributeError "rom").
Proof.
  split.
  - apply (proj1 (constructor_succeeds_iff (C := quadratic) ([] : list float) 1)).
    split_and!; try reflexivity. exists [1]. split_and!; try reflexivity.
    split; reflexivity.
  - apply (proj2 (constructor_succeeds_iff (C := quadratic) ([4] : list float) 4));
      [reflexivity | by left].
Defined.

(** [extend] at [3] on the surrogate started at [4], then [reject] or
    [accept]. *)
Lemma protocol_example :
  exists s1 s2,
    extend (surrogate (started 4)) 3 = Ok s1 /\
    rom (reject s1) = Some [4] /\
    accept s1 = Ok s2 /\ rom s2 = Some [4; 3] /\
    accept s2 = Exc (AssertionError (Some no_new_rom)).
Proof.
  destruct (extend_then_reject_or_accept (C := quadratic) (surrogate (started 4)) 1 [4] [4] 3
              (started_committed 4))
    as (s1 & He & ((_ & _ & Hrom) & _) & s2 & Ha & Hrom2 & _ & _ & _ & Ha2 & _).
  exists s1, s2. split_and!; [exact He | exact Hrom | exact Ha | exact Hrom2 | exact Ha2].
Defined.

(** The basis grows from one to two snapshots by the accepted extension. *)
Lemma rb_size_example :
  rb_size (surrogate (started 4)) = Ok 1%nat /\
  exists s1 s2,
    extend (surrogate (started 4)) 3 = Ok s1 /\ accept s1 = Ok s2 /\
    rb_size s1 = Ok 1%nat /\ rb_size s2 = Ok 2%nat.
Proof.
  destruct (rb_size_follows_committed (C := quadratic) (surrogate (started 4)) 1 [4] [4] 3
              (started_committed 4))
    as (Hsize & s1 & s2 & He & Ha & Hs1 & _ & _ & Hs2).
  split; [exact Hsize|]. exists s1, s2. split_and!; [exact He | exact Ha | exact Hs1 |].
  apply Hs2. intros [H|H]; vm_compute in H; discriminate.
Defined.

End MoreExamples.

(** * Properties of the patches and mappings of [coercive_ipl3dg] *)

Section Mappings.

Lemma py_getitem_nonneg {A : Type} (l : list A) (k : nat) :
  IPL.py_getitem l (Z.of_nat k) =
  match l !! k with Some x => Ok x | None => Exc IndexError end.
Proof.
  unfold IPL.py_getitem.
  destruct (Z.ltb_spec (Z.of_nat k) 0); [lia|]. rewrite Nat2Z.id.
  destruct (l !! k) as [x|] eqn:Hk.
  - apply lookup_lt_Some in Hk.
    destruct (Z.leb_spec 0 (Z.of_nat k)); [|lia].
    destruct (Z.ltb_spec (Z.of_nat k) (Z.of_nat (length l))); [done|lia].
  - by destruct (_ && _).
Qed.

Lemma enumerate_find_spec (i c : Z) (l : list Z) :
  0 <= c ->
  ((i ∉ l) /\ IPL.enumerate_find i c l = -1) \/
  (exists k : nat,
     l !! k = Some i /\ (forall k' : nat, (k' < k)%nat -> l !! k' <> Some i) /\
     IPL.enumerate_find i c l = c + Z.of_nat k).
Proof.
  revert c. induction l as [|j l IH]; intros c Hc; simpl.
  - left. split; [|done]. by intros ?%elem_of_nil.
  - destruct (Z.eqb_spec j i) as [->|Hne].
    + right. exists 0%nat. split_and!; [done | lia | lia].
    + destruct (IH (c + 1) ltac:(lia)) as [[Hnot ->]|(k & Hk & Hfirst & ->)].
      * left. split; [|done]. intros [?|?]%elem_of_cons; [congruence|done].
      * right. exists (Datatypes.S k). split_and!; [done| |lia].
        intros [|k'] Hlt; simpl; [congruence|]. apply Hfirst. lia.
Qed.

(** X12: [global_to_local_mapping] returns [-1] exactly for the numbers that
    are not in [local_elements]; for a number that is, it returns the first
    position that holds it, and [local_to_global_mapping] leads back. *)
Theorem global_to_local_finds_first (local_elements : list Z) (i : Z) :
  (IPL.global_to_local_mapping local_elements i = -1 <-> i ∉ local_elements) /\
  (i ∈ local_elements ->
   let g := IPL.global_to_local_mapping local_elements i in
   0 <= g < Z.of_nat (length local_elements) /\
   IPL.local_to_global_mapping local_elements g = Ok i /\
   forall k, 0 <= k < g -> IPL.local_to_global_mapping local_elements k <> Ok i).
Proof.
  unfold IPL.global_to_local_mapping, IPL.local_to_global_mapping.
  destruct (enumerate_find_spec i 0 local_elements ltac:(lia))
    as [[Hnot ->]|(k & Hk & Hfirst & ->)].
  - split; [done|]. by intros ?.
  - assert (Hin : i ∈ local_elements) by by eapply list_elem_of_lookup_2.
    split; [split; [lia|done]|]. intros _. cbv zeta.
    pose proof (lookup_lt_Some _ _ _ Hk). split_and!; [lia | lia | |].
    + replace (0 + Z.of_nat k) with (Z.of_nat k) by lia.
      by rewrite py_getitem_nonneg, Hk.
    + intros k' Hk'. replace k' with (Z.of_nat (Z.to_nat k')) by lia.
      rewrite py_getitem_nonneg.
      destruct (local_elements !! Z.to_nat k') as [x|] eqn:Hx; [|done].
      intros [= ->]. eapply (Hfirst (Z.to_nat k')); [lia|done].
Qed.

(** X13: for a position [k >= 0] of [local_elements],
    [global_to_local_mapping] applied to the element at [k] returns a
    position not after [k], and [k] itself when no element occurs twice. *)
Theorem local_to_global_round_trip (local_elements : list Z) (k x : Z) :
  0 <= k ->
  IPL.local_to_global_mapping local_elements k = Ok x ->
  0 <= IPL.global_to_local_mapping local_elements x <= k /\
  (NoDup local_elements -> IPL.global_to_local_mapping local_elements x = k).
Proof.
  intros Hk. unfold IPL.local_to_global_mapping, IPL.global_to_local_mapping.
  replace k with (Z.of_nat (Z.to_nat k)) at 1 by lia. rewrite py_getitem_nonneg.
  destruct (local_elements !! Z.to_nat k) as [y|] eqn:Hy; [|done]. intros [= ->].
  destruct (enumerate_find_spec x 0 local_elements ltac:(lia)) as [[Hnot _]|(g & Hg & Hfirst & ->)].
  - destruct Hnot. by eapply list_elem_of_lookup_2.
  - assert (Hle : (g <= Z.to_nat k)%nat).
    { destruct (decide (g <= Z.to_nat k)%nat) as [|Hgt]; [done|].
      destruct (Hfirst (Z.to_nat k)); [lia|done]. }
    split; [lia|]. intros Hnd.
    pose proof (NoDup_lookup _ _ _ _ Hnd Hg Hy). lia.
Qed.

(** X14: [local_to_global_mapping] raises [IndexError] exactly outside
    [-len <= i < len]; the value [-1] that [global_to_local_mapping] returns
    for a missing number is a valid index: fed back, it gives the last
    element of a non-empty [local_elements]. *)
Theorem missing_number_maps_to_last (local_elements : list Z) (i : Z) :
  (forall j,
     IPL.local_to_global_mapping local_elements j = Exc IndexError <->
     j < - Z.of_nat (length local_elements) \/ Z.of_nat (length local_elements) <= j) /\
  (i ∉ local_elements ->
   IPL.local_to_global_mapping local_elements
     (IPL.global_to_local_mapping local_elements i) =
   match last local_elements with
   | Some x => Ok x
   | None => Exc IndexError
   end).
Proof.
  split.
  - intros j. unfold IPL.local_to_global_mapping, IPL.py_getitem.
    set (n := Z.of_nat (length local_elements)). cbv zeta.
    assert (Hin : forall j', 0 <= j' < n ->
              exists x, local_elements !! Z.to_nat j' = Some x).
    { intros j' Hj'. apply lookup_lt_is_Some_2. lia. }
    destruct (Z.ltb_spec j 0).
    + destruct (Z.leb_spec 0 (j + n)); destruct (Z.ltb_spec (j + n) n); cbn [andb];
        try (split; [lia|done]).
      destruct (Hin (j + n)) as [x ->]; [lia|]. split; [done|lia].
    + destruct (Z.leb_spec 0 j); destruct (Z.ltb_spec j n); cbn [andb];
        try (split; [lia|done]).
      destruct (Hin j) as [x ->]; [lia|]. split; [done|lia].
  - intros Hnot. unfold IPL.global_to_local_mapping.
    destruct (enumerate_find_spec i 0 local_elements ltac:(lia)) as [[_ ->]|(k & Hk & _)].
    2: { destruct Hnot. by eapply list_elem_of_lookup_2. }
    unfold IPL.local_to_global_mapping, IPL.py_getitem. rewrite last_lookup.
    destruct local_elements as [|x l]; [done|].
    cbn [length Z.ltb Z.compare].
    replace (-1 + Z.of_nat (Datatypes.S (length l))) with (Z.of_nat (length l)) by lia.
    rewrite Nat2Z.id. cbn [pred].
    destruct (Z.leb_spec 0 (Z.of_nat (length l))); [|lia].
    destruct (Z.ltb_spec (Z.of_nat (length l)) (Z.of_nat (Datatypes.S (length l)))); [|lia].
    cbn [andb]. destruct ((x :: l) !! length l) eqn:Hl; [done|].
    apply lookup_ge_None in Hl. simpl in Hl. lia.
Qed.

End Mappings.

Section NodePatches.


Lemma node_patches_square (k : Z) :
  0 <= k ->
  IPL.construct_inner_node_patches (k * k) =
  Some (i ← seqZ 0 (k - 1);
        j ← seqZ 0 (k - 1);
        [(i * k + j,
          [i * k + j; i * k + (j + 1); (i + 1) * k + j; (i + 1) * k + (j + 1)])]).
Proof.
  intros Hk. unfold IPL.construct_inner_node_patches. cbv zeta.
  by rewrite Z.sqrt_square, Z.eqb_refl.
Qed.

Lemma node_patches_elem (k : Z) (ps : list (Z * list Z)) (key : Z) (els : list Z) :
  0 <= k ->
  IPL.construct_inner_node_patches (k * k) = Some ps ->
  (key, els) ∈ ps <->
  exists i j, 0 <= i < k - 1 /\ 0 <= j < k - 1 /\ key = i * k + j /\
              els = [key; key + 1; key + k; key + k + 1].
Proof.
  intros Hk. rewrite node_patches_square by done. intros [= <-].
  rewrite list_elem_of_bind. split.
  - intros (i & (j & Hin & Hj%elem_of_seqZ)%list_elem_of_bind & Hi%elem_of_seqZ).
    apply list_elem_of_singleton in Hin. injection Hin as -> ->.
    exists i, j. split_and!; try lia.
    repeat (apply (f_equal2 cons); [lia|]). done.
  - intros (i & j & Hi & Hj & -> & ->). exists i. split; [|apply elem_of_seqZ; lia].
    apply list_elem_of_bind. exists j. split; [|apply elem_of_seqZ; lia].
    apply list_elem_of_singleton. f_equal.
    repeat (apply (f_equal2 cons); [lia|]). done.
Qed.

Lemma quotient_unique (k i1 j1 i2 j2 : Z) :
  0 <= j1 < k -> 0 <= j2 < k -> i1 * k + j1 = i2 * k + j2 -> i1 = i2 /\ j1 = j2.
Proof. intros ???. assert (i1 = i2) by nia. split; [done|]. subst. lia. Qed.

Lemma node_patches_keys (k : Z) (ps : list (Z * list Z)) :
  0 <= k -> IPL.construct_inner_node_patches (k * k) = Some ps -> NoDup ps.*1.
Proof.
  intros Hk Hps. apply NoDup_fmap_fst.
  - intros key els1 els2
      (i1 & j1 & ? & ? & -> & ->)%(node_patches_elem k _ _ _ Hk Hps)
      (i2 & j2 & ? & ? & ? & ->)%(node_patches_elem k _ _ _ Hk Hps).
    congruence.
  - rewrite node_patches_square in Hps by done. injection Hps as <-.
    apply NoDup_bind; [| |apply NoDup_seqZ].
    + intros i1 i2 [key els] _ _
        (j1 & ->%list_elem_of_singleton & ?%elem_of_seqZ)%list_elem_of_bind
        (j2 & [= Hkey _]%list_elem_of_singleton & ?%elem_of_seqZ)%list_elem_of_bind.
      eapply (quotient_unique k i1 j1 i2 j2); [lia | lia | done].
    + intros i _. apply NoDup_bind; [| |apply NoDup_seqZ].
      * intros j1 j2 [key els] _ _ ->%list_elem_of_singleton
          [= Hkey _]%list_elem_of_singleton. lia.
      * intros j _. apply NoDup_singleton.
Qed.

Lemma node_patches_side (n : Z) (ps : list (Z * list Z)) :
  IPL.construct_inner_node_patches n = Some ps -> exists k, 0 <= k /\ n = k * k.
Proof.
  unfold IPL.construct_inner_node_patches. cbv zeta.
  destruct (Z.eqb_spec (Z.sqrt n * Z.sqrt n) n) as [Heq|]; [|done].
  intros _. exists (Z.sqrt n). split; [apply Z.sqrt_nonneg|done].
Qed.


(** X16: with at most one subdomain per side there is no node patch; for a
    side of at least two, every subdomain lies in some node patch; the four
    subdomains of a patch are distinct numbers of the grid. *)
Theorem node_patches_cover (k : Z) (ps : list (Z * list Z)) :
  0 <= k ->
  IPL.construct_inner_node_patches (k * k) = Some ps ->
  (k <= 1 -> ps = []) /\
  (2 <= k -> forall d, 0 <= d < k * k -> exists key els, (key, els) ∈ ps /\ d ∈ els) /\
  (forall key els, (key, els) ∈ ps ->
     NoDup els /\ forall d, d ∈ els -> 0 <= d < k * k).
Proof.
  intros Hk Hps. split_and!.
  - intros Hle. destruct ps as [|[key els] ps]; [done|].
    assert (Hin : (key, els) ∈ (key, els) :: ps) by left.
    apply (node_patches_elem k _ _ _ Hk Hps) in Hin as (i & j & ? & ? & _). lia.
  - intros Hge d Hd.
    set (i := Z.min (d / k) (k - 2)). set (j := Z.min (d mod k) (k - 2)).
    pose proof (Z.div_mod d k ltac:(lia)) as Hdm.
    pose proof (Z.mod_pos_bound d k ltac:(lia)) as Hmod.
    assert (Hdiv : 0 <= d / k < k).
    { split; [apply Z.div_pos; lia | apply Z.div_lt_upper_bound; lia]. }
    exists (i * k + j), [i * k + j; i * k + j + 1; i * k + j + k; i * k + j + k + 1].
    split.
    + apply (node_patches_elem k _ _ _ Hk Hps). exists i, j. split_and!; try done; lia.
    + assert (Hq : d / k = i \/ d / k = i + 1) by (unfold i; lia).
      assert (Hr : d mod k = j \/ d mod k = j + 1) by (unfold j; lia).
      rewrite !elem_of_cons.
      destruct Hq as [Hq|Hq], Hr as [Hr|Hr]; rewrite Hq, Hr in Hdm;
        [left | right; left | right; right; left | right; right; right; left]; lia.
  - intros key els (i & j & Hi & Hj & -> & ->)%(node_patches_elem k _ _ _ Hk Hps).
    split.
    + repeat (apply NoDup_cons; split; [rewrite ?elem_of_cons, ?elem_of_nil; lia|]).
      apply NoDup_nil_2.
    + intros d. rewrite !elem_of_cons, elem_of_nil. nia.
Qed.

End NodePatches.

Section Domains.

Lemma sorted_unique_Some (l l' : list Z) :
  IPL.sorted_unique l = Some l' ->
  l' = merge_sort Z.le (remove_dups l) /\ forall x, x ∈ l -> IPL.int64 x = true.
Proof.
  unfold IPL.sorted_unique. destruct (forallb IPL.int64 l) eqn:Hall; [|done].
  intros [= <-]. split; [done|]. intros x Hx.
  rewrite forallb_forall in Hall. by apply Hall, list_elem_of_In.
Qed.

Lemma sorted_unique_in_range (l : list Z) :
  (forall x, x ∈ l -> IPL.int64 x = true) ->
  IPL.sorted_unique l = Some (merge_sort Z.le (remove_dups l)).
Proof.
  intros Hall. unfold IPL.sorted_unique.
  assert (forallb IPL.int64 l = true) as ->; [|done].
  apply forallb_forall. intros x Hx. by apply Hall, list_elem_of_In.
Qed.

Lemma elem_of_sorted_unique (l l' : list Z) (x : Z) :
  IPL.sorted_unique l = Some l' -> x ∈ l' <-> x ∈ l.
Proof.
  intros [-> _]%sorted_unique_Some.
  by rewrite merge_sort_Permutation, elem_of_remove_dups.
Qed.

Lemma NoDup_sorted_unique (l l' : list Z) : IPL.sorted_unique l = Some l' -> NoDup l'.
Proof.
  intros [-> _]%sorted_unique_Some.
  rewrite merge_sort_Permutation. apply NoDup_remove_dups.
Qed.

Lemma strictly_sorted (l : list Z) :
  StronglySorted Z.le l -> NoDup l -> StronglySorted Z.lt l.
Proof.
  induction 1 as [|x l Hl IH Hx]; intros Hnd; constructor.
  - apply IH. by apply NoDup_cons in Hnd as [_ ?].
  - apply NoDup_cons in Hnd as [Hnot _].
    apply Forall_forall. intros y Hy.
    assert (x <= y) by (by eapply Forall_forall in Hx).
    assert (x <> y) by (intros ->; done). lia.
Qed.

Lemma sorted_unique_sorted (l l' : list Z) :
  IPL.sorted_unique l = Some l' -> StronglySorted Z.lt l'.
Proof.
  intros Hl. apply strictly_sorted; [|by eapply NoDup_sorted_unique].
  apply sorted_unique_Some in Hl as [-> _]. apply (StronglySorted_merge_sort _).
Qed.

(** What [add_element_neighbors] returns, entry by entry. *)
Lemma add_element_neighbors_Some (neighbors : Z -> list Z)
    (domains new_domains : list (Z * list Z)) :
  IPL.add_element_neighbors neighbors domains = Some new_domains ->
  Forall2 (fun item new_item =>
             new_item.1 = item.1 /\
             IPL.sorted_unique (item.2 ≫= neighbors) = Some new_item.2)
          domains new_domains.
Proof.
  unfold IPL.add_element_neighbors. intros H%mapM_Some.
  eapply Forall2_impl; [exact H|]. intros [i elements] [j new_elements]. simpl.
  destruct (IPL.sorted_unique (elements ≫= neighbors)); [|done].
  by intros [= -> ->].
Qed.

Lemma add_element_neighbors_in_range (neighbors : Z -> list Z)
    (domains : list (Z * list Z)) :
  (forall i elements el x,
     (i, elements) ∈ domains -> el ∈ elements -> x ∈ neighbors el ->
     IPL.int64 x = true) ->
  exists new_domains, IPL.add_element_neighbors neighbors domains = Some new_domains.
Proof.
  intros Hrange.
  exists ((fun item : Z * list Z =>
             (item.1, merge_sort Z.le (remove_dups (item.2 ≫= neighbors)))) <$> domains).
  unfold IPL.add_element_neighbors.
  apply mapM_Some, Forall2_fmap_r, Forall_Forall2_diag, Forall_forall.
  intros [i elements] Hin. simpl. rewrite sorted_unique_in_range; [done|].
  intros x (el & ? & ?)%list_elem_of_bind. by eapply Hrange.
Qed.

Lemma keys_of_Forall2 {A B : Type} (l : list (Z * A)) (k : list (Z * B)) :
  Forall2 (fun x y => y.1 = x.1) l k -> k.*1 = l.*1.
Proof. induction 1 as [|x y l k Hxy _ IH]; [done|]. csimpl. by rewrite Hxy, IH. Qed.

(** X17: when every neighbour of an element of [domains] is a number that
    numpy holds as [int64], [add_element_neighbors] returns a dict with the
    keys of [domains] in their order; the new value of a key lists, in
    strictly increasing order, exactly the neighbours of the elements of the
    old value.  An element of the old value is kept only if it neighbours
    one of them. *)
Theorem add_element_neighbors_collects (neighbors : Z -> list Z)
    (domains : list (Z * list Z)) :
  (forall i elements el x,
     (i, elements) ∈ domains -> el ∈ elements -> x ∈ neighbors el ->
     IPL.int64 x = true) ->
  exists new_domains,
    IPL.add_element_neighbors neighbors domains = Some new_domains /\
    new_domains.*1 = domains.*1 /\
    forall (n : nat) (i : Z) (elements : list Z),
      domains !! n = Some (i, elements) ->
      exists new_elements,
        new_domains !! n = Some (i, new_elements) /\
        StronglySorted Z.lt new_elements /\
        forall x, x ∈ new_elements <-> exists el, el ∈ elements /\ x ∈ neighbors el.
Proof.
  intros Hrange.
  destruct (add_element_neighbors_in_range neighbors domains Hrange)
    as [new_domains Hnew].
  exists new_domains. split; [done|].
  apply add_element_neighbors_Some in Hnew. split.
  - apply keys_of_Forall2. eapply Forall2_impl; [exact Hnew|]. by intros ?? [? _].
  - intros n i elements Hn.
    destruct (Forall2_lookup_l _ _ _ _ _ Hnew Hn) as ([j new_elements] & Hn' & Hj & Hs).
    simpl in Hj, Hs. subst j. exists new_elements.
    split_and!; [done | by eapply sorted_unique_sorted |].
    intros x. rewrite (elem_of_sorted_unique _ _ _ Hs), list_elem_of_bind.
    naive_solver.
Qed.

End Domains.

Section ElementPatches.
Variable neighbors : Z -> list Z.

Implicit Types nh : gset Z.

Lemma corners_of_mono (y : Z) nh nh' :
  nh ⊆ nh' -> (corners_of neighbors y nh <= corners_of neighbors y nh')%nat.
Proof. intros Hsub. apply subseteq_size. set_solver. Qed.

Lemma add_corner_spec nh (x : Z) :
  nh ⊆ IPL.add_corner neighbors nh x /\
  forall y, y ∈ IPL.add_corner neighbors nh x ->
            y ∈ nh \/ (y = x /\ corners_of neighbors y nh = 2%nat).
Proof.
  unfold IPL.add_corner, corners_of.
  destruct (decide _) as [[Hnot Hsize]|_]; [|by auto].
  split; [set_solver|]. intros y [?| ->%elem_of_singleton]%elem_of_union; auto.
Qed.

Lemma inner_loop_spec (l : list Z) nh :
  nh ⊆ foldl (IPL.add_corner neighbors) nh l /\
  forall y, y ∈ foldl (IPL.add_corner neighbors) nh l ->
            y ∈ nh \/
            (y ∈ l /\ (2 <= corners_of neighbors y (foldl (IPL.add_corner neighbors) nh l))%nat).
Proof.
  revert nh. induction l as [|x l IH]; intros nh; simpl; [by auto|].
  destruct (IH (IPL.add_corner neighbors nh x)) as [Hsub Hin].
  destruct (add_corner_spec nh x) as [Hsub1 Hin1].
  split; [set_solver|]. intros y Hy.
  destruct (Hin y Hy) as [Hy1|[Hl Hc]].
  - destruct (Hin1 y Hy1) as [?|[-> Hc]]; [by left|]. right. split; [left|].
    pose proof (corners_of_mono x nh _ (transitivity Hsub1 Hsub)). lia.
  - right. split; [by right|done].
Qed.

Lemma outer_loop_spec (l : list Z) nh :
  let result := foldl (fun nh nn => foldl (IPL.add_corner neighbors) nh (neighbors nn))
                      nh l in
  nh ⊆ result /\
  forall y, y ∈ result ->
            y ∈ nh \/
            exists nn, nn ∈ l /\ y ∈ neighbors nn /\ (2 <= corners_of neighbors y result)%nat.
Proof.
  cbv zeta. revert nh. induction l as [|nn l IH]; intros nh; simpl; [by auto|].
  destruct (IH (foldl (IPL.add_corner neighbors) nh (neighbors nn))) as [Hsub Hin].
  destruct (inner_loop_spec (neighbors nn) nh) as [Hsub1 Hin1].
  split; [set_solver|]. intros y Hy.
  destruct (Hin y Hy) as [Hy1|(nn' & ? & ? & ?)].
  - destruct (Hin1 y Hy1) as [?|[? Hc]]; [by left|]. right. exists nn.
    split_and!; [left | done |].
    pose proof (corners_of_mono y _ _ Hsub). lia.
  - right. exists nn'. split_and!; [by right | done | done].
Qed.

(** X18: the patch that [construct_element_patches] builds for subdomain
    [ss] contains [ss] and its neighbours; every other member is a
    neighbour of a neighbour of [ss] that has at least two neighbours in
    the patch.  The list holds one patch for each subdomain, in order. *)
Theorem element_patch_members (num_subdomains ss : Z) :
  let patch := IPL.element_patch neighbors ss in
  (0 <= ss < num_subdomains ->
   IPL.construct_element_patches neighbors num_subdomains !! Z.to_nat ss = Some patch) /\
  length (IPL.construct_element_patches neighbors num_subdomains) =
    Z.to_nat num_subdomains /\
  ss ∈ patch /\
  (forall nn, nn ∈ neighbors ss -> nn ∈ patch) /\
  (forall y, y ∈ patch ->
     y = ss \/ y ∈ neighbors ss \/
     exists nn, nn ∈ neighbors ss /\ y ∈ neighbors nn /\
                (2 <= size ((list_to_set (neighbors y) : gset Z) ∩ patch))%nat).
Proof.
  cbv zeta. unfold IPL.construct_element_patches, IPL.element_patch.
  destruct (outer_loop_spec (neighbors ss)
              ({[ss]} ∪ list_to_set (neighbors ss))) as [Hsub Hin].
  cbv zeta in Hsub, Hin. split_and!.
  - intros Hss. rewrite list_lookup_fmap, lookup_seqZ_lt by lia.
    replace (0 + Z.of_nat (Z.to_nat ss)) with ss by lia. done.
  - by rewrite length_fmap, length_seqZ.
  - set_solver.
  - intros nn Hnn. apply Hsub. set_solver.
  - intros y Hy. destruct (Hin y Hy) as [Hy1|(nn & ? & ? & ?)].
    + set_solver.
    + right; right. by exists nn.
Qed.

End ElementPatches.

Section EstimatorData.
Variable neighbors : Z -> list Z.
Variable local_model_returns : list Z -> bool.
Variable pass_rest_returns : Z -> list Z -> list Z -> list Z -> bool.

Lemma dict_getitem_elem {V : Type} (d : list (Z * V)) (k : Z) (v : V) :
  NoDup d.*1 -> (k, v) ∈ d -> IPL.dict_getitem d k = Some v.
Proof.
  induction d as [|[k' v'] d IH]; [by intros _ ?%elem_of_nil|].
  csimpl. intros [Hnot Hnd]%NoDup_cons [[= -> ->]|Hin]%elem_of_cons.
  - by rewrite Z.eqb_refl.
  - destruct (Z.eqb_spec k' k) as [->|]; [|by apply IH].
    destruct Hnot. apply list_elem_of_fmap. by exists (k, v).
Qed.

Lemma local_position (elements : list Z) (el i : Z) :
  0 <= i ->
  IPL.global_to_local_mapping elements el = i ->
  IPL.local_to_global_mapping elements i = Ok el.
Proof.
  intros Hi. unfold IPL.global_to_local_mapping, IPL.local_to_global_mapping.
  destruct (enumerate_find_spec el 0 elements ltac:(lia))
    as [[_ ->]|(p & Hp & _ & ->)]; [lia|].
  intros <-. replace (0 + Z.of_nat p) with (Z.of_nat p) by lia.
  by rewrite py_getitem_nonneg, Hp.
Qed.

Lemma position_of_unique (elements : list Z) (el i : Z) :
  NoDup elements -> 0 <= i ->
  IPL.local_to_global_mapping elements i = Ok el ->
  IPL.global_to_local_mapping elements el = i.
Proof.
  intros Hnd Hi. unfold IPL.global_to_local_mapping, IPL.local_to_global_mapping.
  replace i with (Z.of_nat (Z.to_nat i)) at 1 by lia. rewrite py_getitem_nonneg.
  destruct (elements !! Z.to_nat i) as [y|] eqn:Hy; [|done]. intros [= ->].
  destruct (enumerate_find_spec el 0 elements ltac:(lia))
    as [[Hnot _]|(p & Hp & _ & ->)].
  - destruct Hnot. by eapply list_elem_of_lookup_2.
  - pose proof (NoDup_lookup _ _ _ _ Hnd Hp Hy). lia.
Qed.

Lemma missing_iff (elements : list Z) (el : Z) :
  IPL.global_to_local_mapping elements el = -1 <-> el ∉ elements.
Proof.
  unfold IPL.global_to_local_mapping.
  destruct (enumerate_find_spec el 0 elements ltac:(lia))
    as [[Hnot ->]|(p & Hp & _ & ->)]; [done|].
  split; [lia|]. intros []. by eapply list_elem_of_lookup_2.
Qed.

Lemma estimator_entry_Some (inner : list (Z * list Z)) (key : Z)
    (elements : list Z) (entry : Z * (list Z * list Z * list Z)) :
  IPL.estimator_entry local_model_returns pass_rest_returns inner key elements
    = Some entry ->
  local_model_returns elements = true /\
  exists node_elements,
    IPL.dict_getitem inner key = Some node_elements /\
    pass_rest_returns key elements node_elements
      (IPL.global_to_local_mapping elements <$> node_elements) = true /\
    entry = (key, (elements, node_elements,
                   IPL.global_to_local_mapping elements <$> node_elements)).
Proof.
  unfold IPL.estimator_entry.
  destruct (local_model_returns elements); [|done].
  destruct (IPL.dict_getitem inner key) as [node_elements|]; [|done]. cbv zeta.
  destruct (pass_rest_returns _ _ _ _) eqn:Hrest; [|done].
  intros [= <-]. split; [done|]. by exists node_elements.
Qed.

(** X19: when the constructor's loop over the estimator domains completes,
    [estimator_data] holds one entry for each node patch, under the same
    key and in the same order; for the entry of a key, the local model of
    [elements] was built, [node_elements] is the node patch of the key,
    [elements] are exactly the neighbours of the node elements, a position
    [i >= 0] occurs in [local_node_elements] exactly when [elements[i]] is
    a node element, and [-1] occurs in it exactly when some node element
    neighbours no node element of its patch.  The loop completes when the
    node patches exist, all neighbours are numbers that numpy holds as
    [int64], and the construction of the local models and the rest of
    each pass return. *)
Theorem estimator_data_positions (n : Z) :
  (forall data,
     IPL.estimator_data local_model_returns pass_rest_returns neighbors n
       = Some data ->
     exists inner,
       IPL.construct_inner_node_patches n = Some inner /\
       data.*1 = inner.*1 /\
       forall (p : nat) key elements node_elements local_node_elements,
         data !! p = Some (key, (elements, node_elements, local_node_elements)) ->
         inner !! p = Some (key, node_elements) /\
         local_model_returns elements = true /\
         pass_rest_returns key elements node_elements local_node_elements = true /\
         (forall x, x ∈ elements <->
                    exists el, el ∈ node_elements /\ x ∈ neighbors el) /\
         length local_node_elements = length node_elements /\
         (forall i, 0 <= i ->
            i ∈ local_node_elements <->
            exists el, IPL.local_to_global_mapping elements i = Ok el /\
                       el ∈ node_elements) /\
         (-1 ∈ local_node_elements <->
          exists el, el ∈ node_elements /\
                     forall el', el' ∈ node_elements -> el ∉ neighbors el')) /\
  (forall inner,
     IPL.construct_inner_node_patches n = Some inner ->
     (forall key node_elements el x,
        (key, node_elements) ∈ inner -> el ∈ node_elements -> x ∈ neighbors el ->
        IPL.int64 x = true) ->
     (forall elements, local_model_returns elements = true) ->
     (forall key elements node_elements local_node_elements,
        pass_rest_returns key elements node_elements local_node_elements = true) ->
     exists data,
       IPL.estimator_data local_model_returns pass_rest_returns neighbors n
         = Some data).
Proof.
  split.
  - intros data. unfold IPL.estimator_data.
    destruct (IPL.construct_inner_node_patches n) as [inner|] eqn:Hinner; [|done].
    cbn. destruct (IPL.add_element_neighbors neighbors inner) as [domains|] eqn:Hd;
      [|done].
    cbn. intros Hm%mapM_Some. apply add_element_neighbors_Some in Hd.
    destruct (node_patches_side _ _ Hinner) as (k & Hk & ->).
    pose proof (node_patches_keys k inner Hk Hinner) as Hnd.
    exists inner. split; [done|]. split.
    + transitivity (domains.*1).
      * apply keys_of_Forall2. eapply Forall2_impl; [exact Hm|].
        intros item entry (_ & ne & _ & _ & ->)%estimator_entry_Some. done.
      * apply keys_of_Forall2. eapply Forall2_impl; [exact Hd|]. by intros ?? [? _].
    + intros p key elements node_elements local_node_elements Hp.
      destruct (Forall2_lookup_r _ _ _ _ _ Hm Hp) as ([key' elements'] & Hp' & Hentry).
      apply estimator_entry_Some in Hentry as (Hmodel & ne & Hget & Hrest & Heq).
      cbn [fst snd] in *. injection Heq as <- <- <- ->.
      destruct (Forall2_lookup_r _ _ _ _ _ Hd Hp') as ([key' els] & Hpi & Hkey & Hs).
      cbn [fst snd] in *. subst key'.
      assert (node_elements = els) as ->.
      { apply list_elem_of_lookup_2 in Hpi.
        rewrite (dict_getitem_elem inner key els Hnd Hpi) in Hget. congruence. }
      assert (Hel : forall x, x ∈ elements <->
                              exists el, el ∈ els /\ x ∈ neighbors el).
      { intros x. rewrite (elem_of_sorted_unique _ _ _ Hs), list_elem_of_bind.
        naive_solver. }
      split_and!; [done | done | done | done | by rewrite length_fmap | |].
      * intros i Hi. rewrite list_elem_of_fmap. split.
        -- intros (el & -> & Hin). exists el. split; [|done]. by apply local_position.
        -- intros (el & Hget' & Hin). exists el. split; [|done]. symmetry.
           apply position_of_unique; [by eapply NoDup_sorted_unique | done | done].
      * rewrite list_elem_of_fmap. split.
        -- intros (el & Hm' & Hin). exists el. split; [done|].
           symmetry in Hm'. apply missing_iff in Hm'. intros el' Hel' Hn.
           apply Hm', Hel. by exists el'.
        -- intros (el & Hin & Hno). exists el. split; [|done]. symmetry.
           apply missing_iff. intros (el' & ? & ?)%Hel. by eapply Hno.
  - intros inner Hinner Hrange Hmodels Hrests. unfold IPL.estimator_data.
    rewrite Hinner. cbn.
    destruct (add_element_neighbors_in_range neighbors inner Hrange)
      as [domains Hd].
    rewrite Hd. cbn. apply add_element_neighbors_Some in Hd.
    destruct (node_patches_side _ _ Hinner) as (k & Hk & ->).
    pose proof (node_patches_keys k inner Hk Hinner) as Hnd.
    apply mapM_is_Some, Forall_lookup. intros p [key elements] Hp.
    destruct (Forall2_lookup_r _ _ _ _ _ Hd Hp) as ([key' els] & Hpi & Hkey & _).
    cbn [fst snd] in *. subst key'. apply list_elem_of_lookup_2 in Hpi.
    unfold IPL.estimator_entry; simpl.
    rewrite Hmodels, (dict_getitem_elem inner key els Hnd Hpi), Hrests. done.
Qed.

End EstimatorData.

Section ReduceFacts.
Context {V Rom Residuals Other : Type}.
Variable _reduce_residuals : @IPL.Reductor V Rom Residuals Other -> Residuals.
Variable _reduce : @IPL.Reductor V Rom Residuals Other -> Rom.

Implicit Types self : @IPL.Reductor V Rom Residuals Other.

#[local] Arguments IPL.rebuild : simpl never.
#[local] Arguments IPL.basis_length : simpl never.

Lemma basis_length_from (bases : list (list V)) (a n : nat) :
  mapM (fun I : nat => b ← IPL.py_getitem bases (Z.of_nat I); Ok (Z.of_nat (length b)))
       (seq a n) =
  if decide (a + n <= length bases \/ n = 0)%nat
  then Ok ((fun b => Z.of_nat (length b)) <$> take n (drop a bases))
  else Exc IndexError.
Proof.
  revert a. induction n as [|n IH]; intros a.
  { destruct (decide _) as [_|Hn]; [done|]. destruct Hn. by right. }
  cbn [seq mapM]. rewrite py_getitem_nonneg, IH.
  destruct (bases !! a) as [b|] eqn:Hb.
  - apply lookup_lt_Some in Hb as Hlt.
    rewrite (drop_S _ _ _ Hb). cbn.
    destruct (decide _) as [Hd|Hd], (decide _) as [Hd'|Hd']; try done; try lia.
  - apply lookup_ge_None in Hb. cbn. destruct (decide _); [lia|done].
Qed.

Lemma basis_length_spec self :
  IPL.basis_length self =
  if decide (IPL.S self <= length (IPL.local_bases self))%nat
  then Ok ((fun b => Z.of_nat (length b)) <$> take (IPL.S self) (IPL.local_bases self))
  else Exc IndexError.
Proof.
  unfold IPL.basis_length. rewrite basis_length_from. rewrite drop_0.
  destruct (decide _) as [[|Hz]|Hn], (decide _); try done; try lia.
Qed.

Lemma rebuild_spec self self' (rom : Rom) :
  IPL.rebuild _reduce_residuals _reduce self = Ok (self', rom) ->
  exists lengths,
    IPL.basis_length self = Ok lengths /\
    rom = _reduce (IPL.mkReductor (IPL.S self) (IPL.local_bases self)
                     (IPL._last_rom self) (IPL._last_rom_dims self)
                     (Some (_reduce_residuals self))
                     (IPL.reduced_local_bases self) (IPL.other self)) /\
    self' = IPL.mkReductor (IPL.S self) (IPL.local_bases self) (Some rom)
              (Some (IPL.py_sum lengths)) (Some (_reduce_residuals self))
              (Some (IPL.local_bases self)) (IPL.other self).
Proof.
  unfold IPL.rebuild. cbv zeta.
  change (IPL.basis_length (IPL.mkReductor _ _ _ _ _ _ _))
    with (IPL.basis_length self).
  destruct (IPL.basis_length self) as [lengths|e]; [|done].
  cbn. intros [= <- <-]. by exists lengths.
Qed.

Lemma reduce_cached self (rom : Rom) (d : Z) (lengths : list Z) :
  IPL._last_rom self = Some rom ->
  IPL._last_rom_dims self = Some d ->
  IPL.basis_length self = Ok lengths ->
  IPL.py_sum lengths <= d ->
  IPL.reduce _reduce_residuals _reduce self None = Ok (self, rom).
Proof.
  intros Hrom Hd Hl Hle. unfold IPL.reduce. cbn. rewrite Hrom, Hl. cbn. rewrite Hd.
  by destruct (Z.ltb_spec d (IPL.py_sum lengths)); [lia|].
Qed.

(** X20: [reduce] refuses [dims]; otherwise it returns the rom that it
    leaves in [_last_rom], keeps [S] and [local_bases], and a second call
    returns the same rom without a new reduction.  With a cached rom it
    returns that rom as long as the sum of the basis lengths is not above
    [_last_rom_dims], whatever the bases hold, and reduces anew when the
    sum is above. *)
Theorem reduce_is_cached :
  (forall self d,
     IPL.reduce _reduce_residuals _reduce self (Some d) =
     Exc (AssertionError (Some "Cannot reduce to subbases, yet"))) /\
  (forall self self' rom,
     IPL.reduce _reduce_residuals _reduce self None = Ok (self', rom) ->
     IPL._last_rom self' = Some rom /\
     IPL.S self' = IPL.S self /\
     IPL.local_bases self' = IPL.local_bases self /\
     IPL.other self' = IPL.other self /\
     IPL.reduce _reduce_residuals _reduce self' None = Ok (self', rom)) /\
  (forall self rom d lengths,
     IPL._last_rom self = Some rom ->
     IPL._last_rom_dims self = Some d ->
     IPL.basis_length self = Ok lengths ->
     (IPL.py_sum lengths <= d ->
      IPL.reduce _reduce_residuals _reduce self None = Ok (self, rom)) /\
     (d < IPL.py_sum lengths ->
      exists self',
        IPL.reduce _reduce_residuals _reduce self None =
          Ok (self',
              _reduce (IPL.mkReductor (IPL.S self) (IPL.local_bases self)
                         (Some rom) (Some d) (Some (_reduce_residuals self))
                         (IPL.reduced_local_bases self) (IPL.other self))) /\
        IPL._last_rom_dims self' = Some (IPL.py_sum lengths) /\
        IPL.reduced_local_bases self' = Some (IPL.local_bases self))).
Proof.
  assert (Hrebuilt : forall self self' rom,
            IPL.rebuild _reduce_residuals _reduce self = Ok (self', rom) ->
            IPL._last_rom self' = Some rom /\
            IPL.S self' = IPL.S self /\
            IPL.local_bases self' = IPL.local_bases self /\
            IPL.other self' = IPL.other self /\
            IPL.reduce _reduce_residuals _reduce self' None = Ok (self', rom)).
  { intros self self' rom (lengths & Hl & _ & ->)%rebuild_spec.
    split_and!; try done.
    by apply (reduce_cached _ rom (IPL.py_sum lengths) lengths). }
  split_and!.
  - done.
  - intros self self' rom. unfold IPL.reduce at 1. cbn.
    destruct (IPL._last_rom self) as [rom0|] eqn:Hrom; [|by apply Hrebuilt].
    destruct (IPL.basis_length self) as [lengths|e] eqn:Hl; [|done]. cbn.
    destruct (IPL._last_rom_dims self) as [d|] eqn:Hd; [|done].
    destruct (Z.ltb_spec d (IPL.py_sum lengths)); [by apply Hrebuilt|].
    intros [= <- <-]. split_and!; try done.
    by apply (reduce_cached _ rom0 d lengths).
  - intros self rom d lengths Hrom Hd Hl. split; [by apply reduce_cached|].
    intros Hlt. unfold IPL.reduce. cbn. rewrite Hrom, Hl. cbn. rewrite Hd.
    destruct (Z.ltb_spec d (IPL.py_sum lengths)); [|lia].
    unfold IPL.rebuild. cbv zeta.
    change (IPL.basis_length (IPL.mkReductor _ _ _ _ _ _ _))
      with (IPL.basis_length self).
    rewrite Hl, Hrom, Hd. cbn. eexists. split_and!; done.
Qed.

(** X21: [basis_length] raises [IndexError] exactly when there are fewer
    local bases than the [S] blocks; otherwise it returns the lengths of
    the first [S] bases, and bases beyond the first [S] are not counted. *)
Theorem basis_length_of_blocks self :
  (IPL.basis_length self = Exc IndexError <->
   (length (IPL.local_bases self) < IPL.S self)%nat) /\
  (forall lengths,
     IPL.basis_length self = Ok lengths ->
     length lengths = IPL.S self /\
     forall I : nat, (I < IPL.S self)%nat ->
       exists b, IPL.local_bases self !! I = Some b /\
                 lengths !! I = Some (Z.of_nat (length b))).
Proof.
  rewrite basis_length_spec.
  destruct (decide (IPL.S self <= length (IPL.local_bases self))%nat) as [Hle|Hgt].
  - split; [split; [done|lia]|]. intros lengths [= <-]. split.
    + rewrite length_fmap, length_take. lia.
    + intros I HI. destruct (lookup_lt_is_Some_2 (IPL.local_bases self) I) as [b Hb]; [lia|].
      exists b. split; [done|]. by rewrite list_lookup_fmap, lookup_take_lt, Hb by done.
  - split; [split; [lia|done]|]. done.
Qed.

End ReduceFacts.

Section PatchExamples.
Import TwoBlocks.

(** In [(5, 3, 7, 3)] the number [3] is found at position [1], and position
    [1] leads back to [3]. *)
Lemma finds_first_example :
  3 ∈ [5; 3; 7; 3] /\
  0 <= IPL.global_to_local_mapping [5; 3; 7; 3] 3 < 4 /\
  IPL.local_to_global_mapping [5; 3; 7; 3]
    (IPL.global_to_local_mapping [5; 3; 7; 3] 3) = Ok 3.
Proof.
  assert (H : 3 ∈ [5; 3; 7; 3]) by repeat constructor.
  split; [exact H|].
  destruct (proj2 (global_to_local_finds_first [5; 3; 7; 3] 3) H) as (H1 & H2 & _).
  split; [exact H1 | exact H2].
Defined.

(** Position [3] of [(5, 3, 7, 3)] holds [3], which is found at position [1]
    already. *)
Lemma round_trip_example :
  0 <= 3 /\
  IPL.local_to_global_mapping [5; 3; 7; 3] 3 = Ok 3 /\
  0 <= IPL.global_to_local_mapping [5; 3; 7; 3] 3 <= 3.
Proof.
  assert (H0 : 0 <= 3) by lia.
  assert (H : IPL.local_to_global_mapping [5; 3; 7; 3] 3 = Ok 3) by reflexivity.
  split; [exact H0|]. split; [exact H|].
  exact (proj1 (local_to_global_round_trip [5; 3; 7; 3] 3 3 H0 H)).
Defined.

(** [4] is not in [(5, 3, 7)]; its local number [-1] leads to [7]. *)
Lemma missing_number_example :
  (4 ∉ [5; 3; 7]) /\
  IPL.local_to_global_mapping [5; 3; 7]
    (IPL.global_to_local_mapping [5; 3; 7] 4) = Ok 7.
Proof.
  assert (H : 4 ∉ [5; 3; 7]).
  { rewrite !not_elem_of_cons. split_and!; [lia | lia | lia | apply not_elem_of_nil]. }
  split; [exact H|].
  exact (proj2 (missing_number_maps_to_last [5; 3; 7] 4) H).
Defined.


(** Subdomain [8] of the [3 * 3] grid lies in a node patch. *)
Lemma node_patches_cover_example :
  0 <= 3 /\
  IPL.construct_inner_node_patches (3 * 3) = Some node_patches_3 /\
  exists key els, (key, els) ∈ node_patches_3 /\ 8 ∈ els.
Proof.
  assert (H0 : 0 <= 3) by lia.
  assert (H : IPL.construct_inner_node_patches (3 * 3) = Some node_patches_3)
    by (vm_compute; reflexivity).
  split; [exact H0|]. split; [exact H|].
  apply (proj1 (proj2 (node_patches_cover 3 node_patches_3 H0 H))); lia.
Defined.

Lemma grid_neighbors_near (side i x : Z) :
  x ∈ IPL.grid_neighbors side i ->
  x = i - side \/ x = i - 1 \/ x = i + 1 \/ x = i + side.
Proof.
  unfold IPL.grid_neighbors. rewrite !elem_of_app.
  destruct (side <=? i), (0 <? i mod side), (i mod side <? side - 1),
    (i <? side * (side - 1));
    rewrite ?list_elem_of_singleton, ?elem_of_nil; tauto.
Qed.

Lemma node_patches_3_in_range (key : Z) (node_elements : list Z) (el x : Z) :
  (key, node_elements) ∈ TwoBlocks.node_patches_3 -> el ∈ node_elements ->
  x ∈ IPL.grid_neighbors 3 el -> IPL.int64 x = true.
Proof.
  intros Hpatch Hel Hx%grid_neighbors_near.
  assert (0 <= el <= 8).
  { unfold TwoBlocks.node_patches_3 in Hpatch.
    rewrite !elem_of_cons, elem_of_nil in Hpatch.
    destruct Hpatch as [[= -> ->]|[[= -> ->]|[[= -> ->]|[[= -> ->]|[]]]]];
      rewrite !elem_of_cons, elem_of_nil in Hel; lia. }
  unfold IPL.int64. apply andb_true_intro. split; [apply Z.leb_le|apply Z.ltb_lt]; lia.
Qed.

(** The first node patch of the [3 * 3] grid with the neighbours of its
    elements. *)
Lemma add_element_neighbors_example :
  exists new_domains new_elements,
    IPL.add_element_neighbors (IPL.grid_neighbors 3) [(0, [0; 1; 3; 4])]
      = Some new_domains /\
    new_domains !! 0%nat = Some (0, new_elements) /\
    StronglySorted Z.lt new_elements.
Proof.
  destruct (add_element_neighbors_collects (IPL.grid_neighbors 3) [(0, [0; 1; 3; 4])])
    as (new_domains & Hnew & _ & Hentries).
  - intros i elements el x Hin. apply (node_patches_3_in_range i elements el x).
    apply list_elem_of_singleton in Hin. rewrite Hin. left.
  - destruct (Hentries 0%nat 0 [0; 1; 3; 4] eq_refl) as (new_elements & H1 & H2 & _).
    exists new_domains, new_elements. split_and!; [exact Hnew | exact H1 | exact H2].
Defined.

(** The element patch of the corner [0] of the [3 * 3] grid. *)
Lemma element_patch_example :
  0 <= 0 < 9 /\
  IPL.construct_element_patches (IPL.grid_neighbors 3) 9 !! Z.to_nat 0 =
    Some (IPL.element_patch (IPL.grid_neighbors 3) 0) /\
  IPL.element_patch (IPL.grid_neighbors 3) 0 = {[0; 1; 3; 4]}.
Proof.
  assert (H : 0 <= 0 < 9) by lia. split; [exact H|]. split.
  - exact (proj1 (element_patch_members (IPL.grid_neighbors 3) 9 0) H).
  - vm_compute; reflexivity.
Defined.

(** The estimator data of the [3 * 3] grid, when the local models and the
    rest of each pass are built without an exception. *)
Lemma estimator_data_example :
  exists data,
    IPL.estimator_data (fun _ => true) (fun _ _ _ _ => true) (IPL.grid_neighbors 3) 9
      = Some data /\
    data.*1 = node_patches_3.*1.
Proof.
  assert (H : IPL.construct_inner_node_patches 9 = Some node_patches_3)
    by (vm_compute; reflexivity).
  destruct (estimator_data_positions (IPL.grid_neighbors 3)
              (fun _ => true) (fun _ _ _ _ => true) 9) as [Hentries Hreturns].
  destruct (Hreturns node_patches_3 H node_patches_3_in_range
              (fun _ => eq_refl) (fun _ _ _ _ => eq_refl)) as [data Hdata].
  destruct (Hentries data Hdata) as (inner & Hinner & Hkeys & _).
  exists data. split; [exact Hdata|]. rewrite Hkeys. congruence.
Defined.

(** The first reduction of two blocks leaves a reductor on which a second
    call returns the same reduced model. *)
Lemma reduce_example :
  IPL.reduce reduce_residuals reduce_model two_blocks None = Ok (reduced, 3) /\
  IPL._last_rom reduced = Some 3 /\
  IPL.reduce reduce_residuals reduce_model reduced None = Ok (reduced, 3).
Proof.
  assert (H : IPL.reduce reduce_residuals reduce_model two_blocks None =
              Ok (reduced, 3)) by (vm_compute; reflexivity).
  split; [exact H|].
  destruct (proj1 (proj2 (reduce_is_cached reduce_residuals reduce_model))
              two_blocks reduced 3 H) as (H1 & _ & _ & _ & H2).
  split; [exact H1 | exact H2].
Defined.

(** The lengths of the bases of the two blocks. *)
Lemma basis_length_example :
  IPL.basis_length two_blocks = Ok [1; 2] /\ length [1; 2] = IPL.S two_blocks.
Proof.
  assert (H : IPL.basis_length two_blocks = Ok [1; 2]) by (vm_compute; reflexivity).
  split; [exact H|].
  exact (proj1 (proj2 (basis_length_of_blocks two_blocks) [1; 2] H)).
Defined.

End PatchExamples.
